(** * JHU daily-report scraper: extraction, ingestion, generalisation, county filter

    A shallow embedding of [scrapers/covid-19/jhuLocations.js] and the
    properties its specification states about it.

    Conventions of the embedding.
    - A JavaScript string is a [string]: one [ascii] per code unit, read as
      Latin-1 (code units 0..255).
    - A field that holds [undefined], [null] or a string is a [jsval].
    - The value of a count field is a [jsnum]: [null] or a number.  The
      numbers that [parseInt] and [+=] produce are NaN, the infinities, minus
      zero and the integers that an IEEE double holds; an integer result is
      rounded to the nearest double ([to_double]).
    - Objects that the code mutates after sharing them (the [stats] object of
      a record) live in an explicit [heap]; a record object holds the address
      of its [stats] object. *)

From Stdlib Require Import List String Ascii ZArith NArith Bool Lia Arith.
From Stdlib Require Import DecimalString DecimalNat Permutation.
Import ListNotations.
Local Open Scope string_scope.
Local Open Scope list_scope.
Local Open Scope Z_scope.

Set Implicit Arguments.

(** ** JavaScript values *)

Inductive jsval : Type :=
| JUndefined
| JNull
| JStr (s : string).

Inductive jsnum : Type :=
| NaN
| Num (z : Z)
| NegZero
| Infinity (negative : bool)
| NullNum.

(** Outcome of code that may raise an exception. *)
Inductive res (A : Type) : Type :=
| Ok (a : A)
| Throw.
Arguments Throw {A}.

Definition jsval_eqb (a b : jsval) : bool :=
  match a, b with
  | JUndefined, JUndefined => true
  | JNull, JNull => true
  | JStr s, JStr t => String.eqb s t
  | _, _ => false
  end.

(** [v !== null] *)
Definition not_null (v : jsval) : bool :=
  match v with JNull => false | _ => true end.

(** Truthiness of a string-or-nullish value: only non-empty strings. *)
Definition truthy (v : jsval) : bool :=
  match v with
  | JStr EmptyString => false
  | JStr _ => true
  | _ => false
  end.

(** [v || null] *)
Definition or_null (v : jsval) : jsval :=
  if truthy v then v else JNull.

(** [ToString], as applied to a property key or to the argument of
    [parseInt]. *)
Definition ToString (v : jsval) : string :=
  match v with
  | JUndefined => "undefined"
  | JNull => "null"
  | JStr s => s
  end.

Definition two53 : Z := 9007199254740992.

(** The double nearest to an integer: exact up to 2^53; beyond, the 53
    leading bits are kept and the rest is rounded to nearest, ties to the
    even significand; [Infinity] from 2^1024 on. *)
Definition to_double (z : Z) : jsnum :=
  let a := Z.abs z in
  if a <=? two53 then Num z
  else
    let e := Z.log2 a - 52 in
    let q := a / 2 ^ e in
    let r := a mod 2 ^ e in
    let half := 2 ^ (e - 1) in
    let q' := if ((half <? r) || ((r =? half) && Z.odd q))%bool
              then q + 1 else q in
    let m := q' * 2 ^ e in
    if 2 ^ 1024 <=? m then Infinity (z <? 0) else Num (Z.sgn z * m).

(** [ToNumber] on the value of a count field: [null] counts as 0. *)
Definition ToNumber (x : jsnum) : jsnum :=
  match x with
  | NullNum => Num 0
  | _ => x
  end.

(** Addition of two numbers (the [NullNum] rows are not reached after
    [ToNumber]). *)
Definition number_add (x y : jsnum) : jsnum :=
  match x, y with
  | NaN, _ => NaN
  | _, NaN => NaN
  | NullNum, _ => NaN
  | _, NullNum => NaN
  | Infinity s, Infinity t => if Bool.eqb s t then Infinity s else NaN
  | Infinity s, _ => Infinity s
  | _, Infinity t => Infinity t
  | NegZero, NegZero => NegZero
  | NegZero, Num b => Num b
  | Num a, NegZero => Num a
  | Num a, Num b => to_double (a + b)
  end.

(** [+] (and so [+=]) on the values of two count fields. *)
Definition jsadd (a b : jsnum) : jsnum :=
  number_add (ToNumber a) (ToNumber b).

(** ** String primitives *)

Definition code (c : ascii) : N := N_of_ascii c.

Definition in_range (lo hi : N) (c : ascii) : bool :=
  (N.leb lo (code c) && N.leb (code c) hi)%bool.

(** [String.prototype.toLowerCase] on Latin-1 code units: A-Z and the
    accented capitals U+00C0..U+00DE (without the multiplication sign
    U+00D7) move up by 32. *)
Definition lower_char (c : ascii) : ascii :=
  if (in_range 65 90 c
      || (in_range 192 222 c && negb (N.eqb (code c) 215)))%bool
  then ascii_of_N (code c + 32)
  else c.

Fixpoint toLowerCase (s : string) : string :=
  match s with
  | EmptyString => EmptyString
  | String c r => String (lower_char c) (toLowerCase r)
  end.

(** White space and line terminators that [parseInt] skips (those that fit
    in Latin-1): TAB, LF, VT, FF, CR, SP, NBSP. *)
Definition is_white (c : ascii) : bool :=
  (in_range 9 13 c || N.eqb (code c) 32 || N.eqb (code c) 160)%bool.

Fixpoint trim_start (s : string) : string :=
  match s with
  | String c r => if is_white c then trim_start r else s
  | EmptyString => EmptyString
  end.

(** Value of a character as a digit in the given radix. *)
Definition digit_value (radix : Z) (c : ascii) : option Z :=
  let v :=
    if in_range 48 57 c then Some (Z.of_N (code c) - 48)
    else if in_range 97 122 c then Some (Z.of_N (code c) - 87)
    else if in_range 65 90 c then Some (Z.of_N (code c) - 55)
    else None in
  match v with
  | Some d => if d <? radix then Some d else None
  | None => None
  end.

(** Longest prefix of radix digits, read as a number; [acc] is [None] until
    the first digit has been seen. *)
Fixpoint read_digits (radix : Z) (s : string) (acc : option Z) : option Z :=
  match s with
  | EmptyString => acc
  | String c r =>
      match digit_value radix c with
      | Some d =>
          read_digits radix r
            (Some (match acc with Some a => a * radix + d | None => d end))
      | None => acc
      end
  end.

Definition strip_sign (s : string) : Z * string :=
  match s with
  | String "-" r => (-1, r)
  | String "+" r => (1, r)
  | _ => (1, s)
  end.

Definition strip_hex_prefix (s : string) : Z * string :=
  match s with
  | String "0" (String "x" r) => (16, r)
  | String "0" (String "X" r) => (16, r)
  | _ => (10, s)
  end.

(** [parseInt(v)] with no radix argument: the integer read is turned into
    a double, and a negative zero is [-0].  (For more than 20 significant
    decimal digits the language lets an implementation approximate; the
    correctly rounded value is taken here.) *)
Definition parseInt (v : jsval) : jsnum :=
  let trimmed := trim_start (ToString v) in
  let '(sign, unsigned) := strip_sign trimmed in
  let '(radix, numeral) := strip_hex_prefix unsigned in
  match read_digits radix numeral None with
  | None => NaN
  | Some m =>
      if ((sign <? 0) && (m =? 0))%bool then NegZero else to_double (sign * m)
  end.

(** The double of an integer written with a sign: a negative zero is
    [-0]. *)
Definition signed_double (negative : bool) (m : Z) : jsnum :=
  if (negative && (m =? 0))%bool then NegZero
  else to_double (if negative then - m else m).

(** ** Records *)

Record Stats : Type := mkStats {
  confirmed : jsnum;
  deaths : jsnum;
  recovered : jsnum
}.

Record Coordinates : Type := mkCoordinates {
  latitude : jsval;
  longitude : jsval
}.

(** A record whose [stats] field is a [T]: the object's content when [T] is
    [Stats], the object itself (holding the address of its stats object) when
    [T] is [addr]. *)
Record Record_ (T : Type) : Type := mkRecord {
  country : jsval;
  province : jsval;
  county : jsval;
  updatedAt : jsval;
  stats : T;
  coordinates : Coordinates
}.

Abbreviation Record := (Record_ Stats).

(** ** extractData *)

(** [loc[i]] on an array of strings. *)
Definition field (loc : list string) (i : nat) : jsval :=
  match nth_error loc i with
  | Some s => JStr s
  | None => JUndefined
  end.

Definition extractData (loc : list string) : Record :=
  {| country := field loc 3;
     province := or_null (field loc 2);
     county := or_null (field loc 1);
     updatedAt := field loc 4;
     stats := {| confirmed := parseInt (field loc 7);
                 deaths := parseInt (field loc 8);
                 recovered := parseInt (field loc 9) |};
     coordinates := {| latitude := field loc 5;
                       longitude := field loc 6 |} |}.

(** ** The heap of stats objects *)

Definition addr := nat.
Definition heap := addr -> Stats.

(** A record object: its [stats] field is a reference. *)
Definition Obj := Record_ addr.

Definition store (h : heap) (a : addr) (s : Stats) : heap :=
  fun b => if Nat.eqb b a then s else h b.

Definition map_stats {A B : Type} (f : A -> B) (r : Record_ A) : Record_ B :=
  {| country := country r;
     province := province r;
     county := county r;
     updatedAt := updatedAt r;
     stats := f (stats r);
     coordinates := coordinates r |}.

(** Content of a record object in a heap. *)
Definition read (h : heap) (o : Obj) : Record := map_stats h o.

(** A collection as fresh objects, the way deserialisation builds it: the
    record at position [i] gets its own stats object, at address [base + i]. *)
Fixpoint alloc (base : addr) (data : list Record) : list Obj :=
  match data with
  | [] => []
  | r :: rest => map_stats (fun _ => base) r :: alloc (Datatypes.S base) rest
  end.

Definition NaN_stats : Stats := mkStats NaN NaN NaN.

Definition heap_of (data : list Record) : heap :=
  fun a => nth a (map (@stats Stats) data) NaN_stats.

(** ** A plain object used as a map: [statesResult = {}] *)

(** Own properties in creation order. *)
Definition props (A : Type) := list (string * A).

Fixpoint own {A : Type} (o : props A) (k : string) : option A :=
  match o with
  | [] => None
  | (k', v) :: rest => if String.eqb k k' then Some v else own rest k
  end.

(** Property names that every object literal inherits from
    [Object.prototype]; each holds a function or an object, so it is truthy
    and has no [stats] property. *)
Definition Object_prototype_keys : list string :=
  [ "constructor"; "__defineGetter__"; "__defineSetter__"; "hasOwnProperty";
    "__lookupGetter__"; "__lookupSetter__"; "isPrototypeOf";
    "propertyIsEnumerable"; "toString"; "valueOf"; "__proto__";
    "toLocaleString" ].

Definition inherited (k : string) : bool :=
  existsb (String.eqb k) Object_prototype_keys.

Inductive property (A : Type) : Type :=
| OwnValue (v : A)
| InheritedValue
| NoValue.
Arguments InheritedValue {A}.
Arguments NoValue {A}.

(** [o[k]] *)
Definition get {A : Type} (o : props A) (k : string) : property A :=
  match own o k with
  | Some v => OwnValue v
  | None => if inherited k then InheritedValue else NoValue
  end.

Definition is_digit (c : ascii) : bool := in_range 48 57 c.

Fixpoint all_digits (s : string) : bool :=
  match s with
  | EmptyString => true
  | String c r => (is_digit c && all_digits r)%bool
  end.

(** A canonical array index: decimal, no leading zero, below 2^32 - 1. *)
Definition array_index (k : string) : option N :=
  match k with
  | EmptyString => None
  | String "0" (String _ _) => None
  | _ =>
      if (all_digits k && Nat.leb (String.length k) 10)%bool then
        match read_digits 10 k None with
        | Some v => if v <? 4294967295 then Some (Z.to_N v) else None
        | None => None
        end
      else None
  end.

Fixpoint insert_index {A : Type} (n : N) (e : A) (l : list (N * A))
  : list (N * A) :=
  match l with
  | [] => [(n, e)]
  | (m, e') :: rest =>
      if (n <? m)%N then (n, e) :: l else (m, e') :: insert_index n e rest
  end.

(** Own entries whose key is an array index, in ascending index order. *)
Definition index_entries {A : Type} (o : props A) : list (N * (string * A)) :=
  fold_right
    (fun e acc =>
       match array_index (fst e) with
       | Some n => insert_index n e acc
       | None => acc
       end) [] o.

(** Own entries whose key is not an array index, in creation order. *)
Definition name_entries {A : Type} (o : props A) : props A :=
  filter (fun e => match array_index (fst e) with
                   | Some _ => false
                   | None => true
                   end) o.

(** Own entries in the order of [Object.keys]: array indices ascending, then
    the other keys in creation order. *)
Definition Object_entries {A : Type} (o : props A) : props A :=
  map snd (index_entries o) ++ name_entries o.

Definition Object_keys {A : Type} (o : props A) : list string :=
  map fst (Object_entries o).

(** ** generalizedJhudataV2 *)

(** [const { province, ...defaultData } = loc;
     defaultData.province = province || null;]
    a new object that shares the [stats] (and [coordinates]) of [loc]. *)
Definition defaultData {T : Type} (loc : Record_ T) : Record_ T :=
  {| country := country loc;
     province := or_null (province loc);
     county := county loc;
     updatedAt := updatedAt loc;
     stats := stats loc;
     coordinates := coordinates loc |}.

(** The key under which [loc] is looked up: [statesResult[loc.province]]. *)
Definition key {T : Type} (loc : Record_ T) : string :=
  ToString (province loc).

Definition county_level {T : Type} (loc : Record_ T) : bool :=
  not_null (county loc).

Definition set_confirmed (v : jsnum) (s : Stats) : Stats :=
  mkStats v (deaths s) (recovered s).
Definition set_deaths (v : jsnum) (s : Stats) : Stats :=
  mkStats (confirmed s) v (recovered s).
Definition set_recovered (v : jsnum) (s : Stats) : Stats :=
  mkStats (confirmed s) (deaths s) v.

(** [acc.stats.confirmed += loc.stats.confirmed] and its two siblings, one
    assignment after the other on the heap. *)
Definition add_into (h : heap) (acc loc : Obj) : heap :=
  let h1 := store h (stats acc)
              (set_confirmed
                 (jsadd (confirmed (h (stats acc))) (confirmed (h (stats loc))))
                 (h (stats acc))) in
  let h2 := store h1 (stats acc)
              (set_deaths
                 (jsadd (deaths (h1 (stats acc))) (deaths (h1 (stats loc))))
                 (h1 (stats acc))) in
  store h2 (stats acc)
    (set_recovered
       (jsadd (recovered (h2 (stats acc))) (recovered (h2 (stats loc))))
       (h2 (stats acc))).

(** State of the loop: the heap, [result] and [statesResult]. *)
Record loop_state : Type := mkLoop {
  the_heap : heap;
  result : list Obj;
  statesResult : props Obj
}.

(** Body of [data.forEach((loc) => ...)].  When [statesResult[loc.province]]
    is an inherited value the test is true as well, and reading [.confirmed]
    of its missing [stats] raises a TypeError before anything is written. *)
Definition callback (st : loop_state) (loc : Obj) : res loop_state :=
  if county_level loc then
    match get (statesResult st) (key loc) with
    | OwnValue acc =>
        Ok (mkLoop (add_into (the_heap st) acc loc)
                   (result st) (statesResult st))
    | InheritedValue => Throw
    | NoValue =>
        Ok (mkLoop (the_heap st) (result st)
                   (statesResult st ++ [(key loc, defaultData loc)]))
    end
  else
    Ok (mkLoop (the_heap st) (result st ++ [defaultData loc])
               (statesResult st)).

(** [forEach]: on an exception the heap keeps what was written so far. *)
Fixpoint forEach (data : list Obj) (st : loop_state) : heap * res loop_state :=
  match data with
  | [] => (the_heap st, Ok st)
  | loc :: rest =>
      match callback st loc with
      | Ok st' => forEach rest st'
      | Throw => (the_heap st, Throw)
      end
  end.

(** [Object.keys(statesResult).map((state) => result.push(statesResult[state]))]:
    what is pushed, in order.  Every key is an own key, so the lookup never
    reaches the prototype. *)
Definition pushed_states (statesResult : props Obj) : list Obj :=
  flat_map (fun state => match get statesResult state with
                         | OwnValue acc => [acc]
                         | _ => []
                         end)
           (Object_keys statesResult).

(** The function on objects: final heap and returned array (or exception). *)
Definition generalizedJhudataV2 (h : heap) (data : list Obj)
  : heap * res (list Obj) :=
  match forEach data (mkLoop h [] []) with
  | (h', Ok st) => (h', Ok (result st ++ pushed_states (statesResult st)))
  | (h', Throw) => (h', Throw)
  end.

(** ** getCountyJhuDataV2 *)

(** [loc.county !== null && loc.county.toLowerCase() === county]; calling a
    method on [undefined] raises. *)
Definition county_is {T : Type} (name : string) (loc : Record_ T) : res bool :=
  match county loc with
  | JNull => Ok false
  | JUndefined => Throw
  | JStr c => Ok (String.eqb (toLowerCase c) name)
  end.

(** [Array.prototype.filter] with a predicate that may raise. *)
Fixpoint filter_res {A : Type} (p : A -> res bool) (l : list A) : res (list A) :=
  match l with
  | [] => Ok []
  | x :: rest =>
      match p x with
      | Throw => Throw
      | Ok b =>
          match filter_res p rest with
          | Throw => Throw
          | Ok kept => Ok (if b then x :: kept else kept)
          end
      end
  end.

(** The [county] parameter defaults to [null] when it is [undefined]. *)
Definition getCountyJhuDataV2 {T : Type} (data : list (Record_ T)) (county : jsval)
  : res (list (Record_ T)) :=
  let county := match county with JUndefined => JNull | v => v end in
  if truthy county
  then filter_res (county_is (ToString county)) data
  else Ok (filter county_level data).

(** ** The functions on the content of a collection

    The collection is allocated as fresh objects, the function runs on them,
    and the returned objects are read back from the final heap. *)

(** The two parts of the returned array: the records pushed by the loop, and
    the accumulators pushed after it, each with the key it was stored
    under. *)
Definition generalize_parts (data : list Record)
  : res (list Record * props Record) :=
  match forEach (alloc 0%nat data) (mkLoop (heap_of data) [] []) with
  | (h, Ok st) =>
      Ok (map (read h) (result st),
          map (fun e => (fst e, read h (snd e)))
              (Object_entries (statesResult st)))
  | (_, Throw) => Throw
  end.

Definition generalize (data : list Record) : res (list Record) :=
  match generalizedJhudataV2 (heap_of data) (alloc 0%nat data) with
  | (h, Ok out) => Ok (map (read h) out)
  | (_, Throw) => Throw
  end.

(** ** Vocabulary of the properties *)

Definition add_stats (a b : Stats) : Stats :=
  mkStats (jsadd (confirmed a) (confirmed b))
          (jsadd (deaths a) (deaths b))
          (jsadd (recovered a) (recovered b)).

(** Sum of a list of numbers, left to right. *)
Definition jsum (l : list jsnum) : jsnum := fold_left jsadd l (Num 0).

(** Distinct elements in the order of their first occurrence. *)
Fixpoint first_seen (l : list string) : list string :=
  match l with
  | [] => []
  | k :: rest => k :: filter (fun k' => negb (String.eqb k' k)) (first_seen rest)
  end.

(** County-level records stored under key [k], in input order. *)
Definition group (k : string) (data : list Record) : list Record :=
  filter (fun r => (county_level r && String.eqb (key r) k)%bool) data.

(** The accumulator that a group of county-level records ends up as. *)
Definition aggregate (g : list Record) : option Record :=
  match g with
  | [] => None
  | r :: rest =>
      Some (map_stats (fun s => fold_left add_stats (map (@stats Stats) rest) s)
                      (defaultData r))
  end.

(** No county-level record is keyed by an inherited property name. *)
Definition no_inherited_key (data : list Record) : bool :=
  forallb (fun r => negb (county_level r && inherited (key r))) data.

(** No county-level record is keyed by an array index. *)
Definition no_index_key (data : list Record) : bool :=
  forallb (fun r => negb (county_level r &&
                          match array_index (key r) with
                          | Some _ => true
                          | None => false
                          end)) data.

(** The aggregated records derived from county-level input for province
    [P]: those stored under the key of [P]. *)
Definition derived_for (P : jsval) (aggregated : props Record) : list Record :=
  map snd (filter (fun e => String.eqb (fst e) (ToString P)) aggregated).

(** The input records with non-null county and province equal to [P]. *)
Definition counties_of (P : jsval) (data : list Record) : list Record :=
  filter (fun r => (county_level r && jsval_eqb (province r) P)%bool) data.

Definition confirmed_of (r : Record) : jsnum := confirmed (stats r).
Definition deaths_of (r : Record) : jsnum := deaths (stats r).
Definition recovered_of (r : Record) : jsnum := recovered (stats r).

(** A record of the example collections. *)
Definition example (ctry prov cty : jsval) (c d r : jsnum) : Record :=
  mkRecord ctry prov cty (JStr "2020-04-01 21:58:49") (mkStats c d r)
           (mkCoordinates (JStr "36.7") (JStr "-119.4")).

(** Three counties of one province and a record of another country. *)
Definition california : list Record :=
  [ example (JStr "US") (JStr "California") (JStr "Alameda")
            (Num 5) (Num 1) (Num 0);
    example (JStr "Italy") JNull JNull (Num 7) (Num 2) (Num 1);
    example (JStr "US") (JStr "California") (JStr "Butte")
            (Num 10) (Num 0) (Num 2);
    example (JStr "US") (JStr "California") (JStr "Colusa")
            (Num 3) NaN (Num 0) ].

(** A county without province and a county of the province named "null". *)
Definition null_provinces : list Record :=
  [ example (JStr "US") JNull (JStr "Alameda") (Num 1) (Num 0) (Num 0);
    example (JStr "US") (JStr "null") (JStr "Butte") (Num 2) (Num 0) (Num 0) ].

(** Counties of provinces whose names are numerals. *)
Definition numbered_provinces : list Record :=
  [ example (JStr "US") (JStr "2") (JStr "Alameda") (Num 5) (Num 0) (Num 0);
    example (JStr "US") (JStr "1") (JStr "Butte") (Num 6) (Num 0) (Num 0) ].

(** Counties of provinces of which some have numerals as names. *)
Definition mixed_provinces : list Record :=
  [ example (JStr "US") (JStr "Texas") (JStr "Harris") (Num 1) (Num 0) (Num 0);
    example (JStr "US") (JStr "7") (JStr "Alameda") (Num 2) (Num 0) (Num 0);
    example (JStr "US") (JStr "California") (JStr "Butte")
            (Num 3) (Num 0) (Num 0);
    example (JStr "US") (JStr "3") (JStr "Colusa") (Num 4) (Num 0) (Num 0) ].

(** What a reader of the cache gets back for a count: [jhudataV2] stores
    [JSON.stringify(result)], which writes NaN and the infinities as [null]
    and [-0] as [0]; [JSON.parse] of that text gives [null] and 0.  (Strings
    and [null] come back as they are, and a property whose value is
    [undefined] is left out, so that reading it gives [undefined] again.) *)
Definition JSON_number (x : jsnum) : jsnum :=
  match x with
  | NaN => NullNum
  | Infinity _ => NullNum
  | NegZero => Num 0
  | _ => x
  end.

Definition JSON_record (r : Record) : Record :=
  map_stats (fun s => {| confirmed := JSON_number (confirmed s);
                         deaths := JSON_number (deaths s);
                         recovered := JSON_number (recovered s) |}) r.

(** Two rows of one province, the first with an unreadable count, and the
    records extracted from them. *)
Definition corrupted_rows : list (list string) :=
  [ ["";"Alameda";"California";"US";"2020-04-01 21:58:49";"36.7";"-119.4";
     "n/a";"1";"0"];
    ["";"Butte";"California";"US";"2020-04-01 21:58:49";"36.7";"-119.4";
     "10";"0";"2"] ].

Definition corrupted : list Record :=
  [ example (JStr "US") (JStr "California") (JStr "Alameda")
            NaN (Num 1) (Num 0);
    example (JStr "US") (JStr "California") (JStr "Butte")
            (Num 10) (Num 0) (Num 2) ].

(** A county with an unreadable count, of a province named as a property
    that every object inherits. *)
Definition corrupted_constructor : list Record :=
  [ example (JStr "US") (JStr "constructor") (JStr "Alameda")
            NaN (Num 1) (Num 0) ].

(** Counts whose sum passes 2^53. *)
Definition large_counts : list Record :=
  [ example (JStr "US") (JStr "California") (JStr "Alameda")
            (Num two53) (Num 0) (Num 0);
    example (JStr "US") (JStr "California") (JStr "Butte")
            (Num 1) (Num 0) (Num 0);
    example (JStr "US") (JStr "California") (JStr "Colusa")
            (Num 1) (Num 0) (Num 0) ].

(** The province of the record is [null] or a non-empty string. *)
Definition province_named {T : Type} (r : Record_ T) : bool :=
  match province r with
  | JUndefined => false
  | JStr EmptyString => false
  | _ => true
  end.

(** Every county-level record has a province that is [null] or a non-empty
    string. *)
Definition provinces_named (data : list Record) : bool :=
  forallb (fun r => (negb (county_level r) || province_named r)%bool) data.

(** Some county-level record of [before] has the key of [r]. *)
Definition seen_before {T : Type} (before : list (Record_ T)) (r : Record_ T)
  : bool :=
  existsb (fun r' => (county_level r' && String.eqb (key r') (key r))%bool)
          before.

(** County-level records (or objects) with key [k]. *)
Definition keyed {T : Type} (k : string) (r : Record_ T) : bool :=
  (county_level r && String.eqb (key r) k)%bool.

(** The integer held by a count, its magnitude, and the test that the
    counts of a list are integers whose magnitudes add up to at most 2^53:
    then no addition over them rounds. *)
Fixpoint zsum (l : list Z) : Z :=
  match l with
  | [] => 0
  | x :: rest => x + zsum rest
  end.

Definition is_integer (x : jsnum) : bool :=
  match x with
  | Num _ => true
  | _ => false
  end.

Definition integer (x : jsnum) : Z :=
  match x with
  | Num z => z
  | _ => 0
  end.

Definition magnitude (x : jsnum) : Z := Z.abs (integer x).

Definition safe_counts (l : list jsnum) : bool :=
  (forallb is_integer l && (zsum (map magnitude l) <=? two53))%bool.

(** Equality of strings up to letter case. *)
Definition same_ignoring_case (a b : string) : bool :=
  String.eqb (toLowerCase a) (toLowerCase b).

(** ** The loop without the heap

    The same loop on record contents, where adding into an accumulator
    replaces the accumulator's entry.  It is the bridge between the loop on
    objects and the closed forms above. *)

Fixpoint update {A : Type} (k : string) (f : A -> A) (o : props A) : props A :=
  match o with
  | [] => []
  | (k', v) :: rest =>
      if String.eqb k k' then (k', f v) :: rest
      else (k', v) :: update k f rest
  end.

Definition pure_callback (st : list Record * props Record) (r : Record)
  : res (list Record * props Record) :=
  if county_level r then
    match get (snd st) (key r) with
    | OwnValue _ =>
        Ok (fst st,
            update (key r) (map_stats (fun s => add_stats s (stats r))) (snd st))
    | InheritedValue => Throw
    | NoValue => Ok (fst st, snd st ++ [(key r, defaultData r)])
    end
  else Ok (fst st ++ [defaultData r], snd st).

Fixpoint pure_forEach (data : list Record) (st : list Record * props Record)
  : res (list Record * props Record) :=
  match data with
  | [] => Ok st
  | r :: rest =>
      match pure_callback st r with
      | Ok st' => pure_forEach rest st'
      | Throw => Throw
      end
  end.

(** Content of a loop state. *)
Definition content (st : loop_state) : list Record * props Record :=
  (map (read (the_heap st)) (result st),
   map (fun e => (fst e, read (the_heap st) (snd e))) (statesResult st)).

(** Addresses of the stats objects reachable from a loop state. *)
Definition reachable (st : loop_state) : list addr :=
  map (@stats addr) (result st) ++ map (fun e => stats (snd e)) (statesResult st).

(** ** jhudataV2

    The collaborators are parameters: the date string of the snapshot, the
    HTTP client, the CSV parser and the serialiser.  A collaborator that
    fails (a rejected promise, an exception) answers [None]. *)

Inductive log_line : Type :=
| Info (msg : string)
| Err (msg : string).

Record world : Type := mkWorld {
  cache : string -> option string;
  writes : list (string * string);
  log : list log_line
}.

(** Computations that change the world and may raise. *)
Definition M (A : Type) : Type := world -> world * res A.

Definition ret {A : Type} (a : A) : M A := fun w => (w, Ok a).

Definition raise {A : Type} : M A := fun w => (w, Throw).

Definition bind {A B : Type} (m : M A) (k : A -> M B) : M B :=
  fun w =>
    match m w with
    | (w', Ok a) => k a w'
    | (w', Throw) => (w', Throw)
    end.

Notation "x <- m ;; k" := (bind m (fun x => k))
  (at level 61, m at next level, right associativity).
Notation "m ;;; k" := (bind m (fun _ => k))
  (at level 61, right associativity).

(** [try { body } catch (err) { handler }] *)
Definition try_catch {A : Type} (body handler : M A) : M A :=
  fun w =>
    match body w with
    | (w', Ok a) => (w', Ok a)
    | (w', Throw) => handler w'
    end.

(** The value of a collaborator's answer, or its failure. *)
Definition await {A : Type} (answer : option A) : M A :=
  match answer with
  | Some a => ret a
  | None => raise
  end.

Definition logger_info (msg : string) : M unit :=
  fun w => (mkWorld (cache w) (writes w) (log w ++ [Info msg]), Ok tt).

Definition logger_err (msg : string) : M unit :=
  fun w => (mkWorld (cache w) (writes w) (log w ++ [Err msg]), Ok tt).

Definition redis_set (k v : string) : M unit :=
  fun w =>
    (mkWorld (fun k' => if String.eqb k' k then Some v else cache w k')
             (writes w ++ [(k, v)])
             (log w),
     Ok tt).

Definition base : string :=
  "https://raw.githubusercontent.com/CSSEGISandData/COVID-19/master/csse_covid_19_data/csse_covid_19_daily_reports/".

(** [parsed.splice(1)] returns the removed elements: all rows but the first. *)
Definition splice1 {A : Type} (parsed : list A) : list A := tl parsed.

Definition string_of_nat (n : nat) : string :=
  DecimalString.NilZero.string_of_uint (Nat.to_uint n).

Section Ingest.
Variable dateString : string.
Variable axios_get : string -> option string.
Variable csv_fromString : string -> option (list (list string)).
Variable JSON_stringify : list Record -> option string.
Variable jhu_v2 : string.

Definition url : string := (base ++ "/" ++ dateString ++ ".csv")%string.

Definition jhudataV2 : M unit :=
  try_catch
    (logger_info ("USING " ++ dateString ++ ".csv CSSEGISandData")%string ;;;
     response <- await (axios_get url) ;;
     parsed <- await (csv_fromString response) ;;
     let result := map extractData (splice1 parsed) in
     serialized <- await (JSON_stringify result) ;;
     redis_set jhu_v2 serialized ;;;
     logger_info ("Updated JHU CSSE: " ++ string_of_nat (List.length result)
                  ++ " locations")%string)
    (logger_err "Error: Requesting JHULocations failed!").

(** Some step before the cache write fails. *)
Definition fails_before_write : Prop :=
  axios_get url = None
  \/ (exists response, axios_get url = Some response
                       /\ csv_fromString response = None)
  \/ (exists response parsed,
        axios_get url = Some response
        /\ csv_fromString response = Some parsed
        /\ JSON_stringify (map extractData (splice1 parsed)) = None).
End Ingest.

(** What [parseInt] reads, by tables: the white space it skips, the signs,
    the digits and their values. *)
Definition white_codes : list N := [9; 10; 11; 12; 13; 32; 160]%N.

Definition white (c : ascii) : Prop := In (N_of_ascii c) white_codes.

Fixpoint every (P : ascii -> Prop) (s : string) : Prop :=
  match s with
  | EmptyString => True
  | String c rest => P c /\ every P rest
  end.

Definition first_char (s : string) : option ascii :=
  match s with
  | EmptyString => None
  | String c _ => Some c
  end.

Inductive sign_mark : Type := NoSign | PlusSign | MinusSign.

Definition sign_text (sg : sign_mark) : string :=
  match sg with
  | NoSign => ""
  | PlusSign => "+"
  | MinusSign => "-"
  end.

Definition minus (sg : sign_mark) : bool :=
  match sg with
  | MinusSign => true
  | _ => false
  end.

Definition decimal_digits : list (ascii * Z) :=
  [ ("0", 0); ("1", 1); ("2", 2); ("3", 3); ("4", 4);
    ("5", 5); ("6", 6); ("7", 7); ("8", 8); ("9", 9) ]%char.

Definition hexadecimal_digits : list (ascii * Z) :=
  decimal_digits
  ++ [ ("a", 10); ("b", 11); ("c", 12); ("d", 13); ("e", 14); ("f", 15);
       ("A", 10); ("B", 11); ("C", 12); ("D", 13); ("E", 14); ("F", 15) ]%char.

(** A numeral as a list of digits of a table: its text and its value. *)
Fixpoint numeral_text (ds : list (ascii * Z)) : string :=
  match ds with
  | [] => EmptyString
  | d :: rest => String (fst d) (numeral_text rest)
  end.

Definition numeral_value (radix : Z) (ds : list (ascii * Z)) : Z :=
  fold_left (fun a d => a * radix + snd d) ds 0.

Definition numeral (table ds : list (ascii * Z)) : Prop :=
  ds <> [] /\ Forall (fun d => In d table) ds.

(** The text does not go on with a digit of the table. *)
Definition ends_numeral (table : list (ascii * Z)) (t : string) : Prop :=
  forall c, first_char t = Some c -> ~ In c (map fst table).

(** The text does not go on with white space or a sign. *)
Definition no_white_or_sign (t : string) : Prop :=
  forall c, first_char t = Some c ->
            ~ white c /\ c <> "+"%char /\ c <> "-"%char.

(** The text does not go on with the letter that marks a hexadecimal
    numeral. *)
Definition no_hex_mark (t : string) : Prop :=
  forall c, first_char t = Some c -> c <> "x"%char /\ c <> "X"%char.

(** The number that a sequence of decimal digits denotes, continuing from
    [acc]. *)
Fixpoint uint_value (d : Decimal.uint) (acc : Z) : Z :=
  match d with
  | Decimal.Nil => acc
  | Decimal.D0 d => uint_value d (acc * 10 + 0)
  | Decimal.D1 d => uint_value d (acc * 10 + 1)
  | Decimal.D2 d => uint_value d (acc * 10 + 2)
  | Decimal.D3 d => uint_value d (acc * 10 + 3)
  | Decimal.D4 d => uint_value d (acc * 10 + 4)
  | Decimal.D5 d => uint_value d (acc * 10 + 5)
  | Decimal.D6 d => uint_value d (acc * 10 + 6)
  | Decimal.D7 d => uint_value d (acc * 10 + 7)
  | Decimal.D8 d => uint_value d (acc * 10 + 8)
  | Decimal.D9 d => uint_value d (acc * 10 + 9)
  end.

(** * Properties *)

(** ** parseInt *)

Lemma digit_value_not_digit (c : ascii) :
  is_digit c = false -> digit_value 10 c = None.
Proof.
  unfold digit_value, is_digit. intros ->.
  destruct (in_range 97 122 c) eqn:Hl.
  - unfold in_range in Hl. apply andb_prop in Hl as [Hl _].
    apply N.leb_le in Hl.
    destruct (Z.of_N (code c) - 87 <? 10) eqn:Hd; [|reflexivity].
    apply Z.ltb_lt in Hd. lia.
  - destruct (in_range 65 90 c) eqn:Hu; [|reflexivity].
    unfold in_range in Hu. apply andb_prop in Hu as [Hu _].
    apply N.leb_le in Hu.
    destruct (Z.of_N (code c) - 55 <? 10) eqn:Hd; [|reflexivity].
    apply Z.ltb_lt in Hd. lia.
Qed.

Lemma read_digits_uint (d : Decimal.uint) (acc : Z) :
  read_digits 10 (NilEmpty.string_of_uint d) (Some acc)
  = Some (uint_value d acc).
Proof.
  revert acc. induction d; intros acc; cbn; try reflexivity; apply IHd.
Qed.

Lemma uint_value_of_uint_acc (d : Decimal.uint) (acc : nat) :
  uint_value d (Z.of_nat acc) = Z.of_nat (Nat.of_uint_acc d acc).
Proof.
  revert acc. induction d; intros acc; cbn [uint_value Nat.of_uint_acc];
    try reflexivity;
    rewrite <- IHd; f_equal; rewrite Nat.tail_mul_spec; lia.
Qed.

Ltac eval_char_tests :=
  repeat match goal with
    | |- context [is_white (Ascii ?a ?b ?c ?d ?e ?f ?g ?h)] =>
        let v := eval vm_compute in (is_white (Ascii a b c d e f g h)) in
        change (is_white (Ascii a b c d e f g h)) with v
    | |- context [digit_value ?r (Ascii ?a ?b ?c ?d ?e ?f ?g ?h)] =>
        let v := eval vm_compute in (digit_value r (Ascii a b c d e f g h)) in
        change (digit_value r (Ascii a b c d e f g h)) with v
    end.

Lemma parseInt_uint (d : Decimal.uint) :
  d <> Decimal.Nil ->
  parseInt (JStr (NilEmpty.string_of_uint d)) = to_double (uint_value d 0).
Proof.
  intros Hd. unfold parseInt. cbn [ToString].
  destruct d as [|d|d|d|d|d|d|d|d|d|d]; [congruence| ..];
    destruct d as [|d|d|d|d|d|d|d|d|d|d];
    cbn [NilEmpty.string_of_uint trim_start]; eval_char_tests;
    cbn [strip_sign strip_hex_prefix read_digits]; eval_char_tests;
    cbv beta iota; rewrite ?read_digits_uint; cbn [uint_value];
    change (1 <? 0) with false; cbn [andb];
    rewrite ?Z.mul_1_l; repeat (f_equal; try lia).
Qed.

Lemma parseInt_string_of_nat (n : nat) :
  parseInt (JStr (string_of_nat n)) = to_double (Z.of_nat n).
Proof.
  unfold string_of_nat, NilZero.string_of_uint.
  pose proof (DecimalNat.Unsigned.of_to n) as Hn.
  unfold Nat.of_uint in Hn.
  pose proof (uint_value_of_uint_acc (Nat.to_uint n) 0) as Hv.
  rewrite Hn in Hv. cbn [Z.of_nat] in Hv.
  destruct (Nat.to_uint n) eqn:E;
    [cbn in Hv; rewrite <- Hv; reflexivity
    | rewrite parseInt_uint by congruence; now rewrite Hv ..].
Qed.

(** Up to 2^53 an integer is a double. *)
Lemma to_double_exact (z : Z) : Z.abs z <= two53 -> to_double z = Num z.
Proof.
  intros H. unfold to_double. apply Z.leb_le in H. cbv zeta. now rewrite H.
Qed.

(** Beyond 2^53 the result keeps a significand [q] of 53 bits: it is a
    nearest multiple of the unit in the last place, the even one of two
    nearest, and infinity when that reaches 2^1024. *)
Lemma to_double_rounds (z : Z) :
  two53 < Z.abs z ->
  let e := Z.log2 (Z.abs z) - 52 in
  exists q : Z,
    2 ^ 52 <= q <= 2 ^ 53
    /\ 2 * Z.abs (q * 2 ^ e - Z.abs z) <= 2 ^ e
    /\ (2 * Z.abs (q * 2 ^ e - Z.abs z) = 2 ^ e -> Z.even q = true)
    /\ to_double z
       = if 2 ^ 1024 <=? q * 2 ^ e then Infinity (z <? 0)
         else Num (Z.sgn z * (q * 2 ^ e)).
Proof.
  intros Hbig e.
  set (a := Z.abs z) in *.
  assert (Ha : 0 < a) by (unfold two53 in Hbig; lia).
  destruct (Z.log2_spec a Ha) as [Hlo Hhi].
  assert (Hlog : 53 <= Z.log2 a).
  { apply Z.log2_le_pow2; [lia|]. unfold two53 in Hbig.
    change (2 ^ 53) with 9007199254740992. lia. }
  assert (He : 1 <= e) by (unfold e; lia).
  assert (Hpow : 2 ^ Z.log2 a = 2 ^ 52 * 2 ^ e).
  { unfold e. rewrite <- Z.pow_add_r by lia. f_equal. lia. }
  assert (Hpow1 : 2 ^ Z.succ (Z.log2 a) = 2 ^ 53 * 2 ^ e).
  { unfold e. rewrite <- Z.pow_add_r by lia. f_equal. lia. }
  assert (Hhalf : 2 ^ e = 2 * 2 ^ (e - 1)).
  { rewrite <- (Z.pow_succ_r 2 (e - 1)) by lia. f_equal. lia. }
  assert (Hpe : 0 < 2 ^ e) by (apply Z.pow_pos_nonneg; lia).
  pose proof (Z.div_mod a (2 ^ e) ltac:(lia)) as Hdm.
  pose proof (Z.mod_pos_bound a (2 ^ e) Hpe) as Hr.
  set (q0 := a / 2 ^ e) in *. set (r := a mod 2 ^ e) in *.
  set (half := 2 ^ (e - 1)) in *.
  assert (Hq0 : 2 ^ 52 <= q0 < 2 ^ 53).
  { rewrite Hpow in Hlo. rewrite Hpow1 in Hhi.
    change (2 ^ 52) with 4503599627370496 in *.
    change (2 ^ 53) with 9007199254740992 in *. nia. }
  unfold to_double. fold a. cbv zeta.
  assert (Hleb : (a <=? two53) = false) by (apply Z.leb_gt; exact Hbig).
  rewrite Hleb. fold e. fold q0. fold r. fold half.
  destruct ((half <? r) || ((r =? half) && Z.odd q0))%bool eqn:Hup.
  - exists (q0 + 1). split; [lia|].
    apply orb_prop in Hup.
    split; [|split; [|reflexivity]].
    + destruct Hup as [Hup|Hup].
      * apply Z.ltb_lt in Hup. nia.
      * apply andb_prop in Hup as [Hup _]. apply Z.eqb_eq in Hup. nia.
    + intros Htie. destruct Hup as [Hup|Hup].
      * apply Z.ltb_lt in Hup. nia.
      * apply andb_prop in Hup as [_ Hodd].
        rewrite Z.add_1_r, Z.even_succ. exact Hodd.
  - exists q0. apply orb_false_elim in Hup as [Hlt Htie].
    apply Z.ltb_ge in Hlt.
    split; [lia|]. split; [|split; [|reflexivity]].
    + nia.
    + intros Heq. assert (Hrh : r = half) by nia.
      apply Z.eqb_eq in Hrh. rewrite Hrh in Htie. cbn [andb] in Htie.
      rewrite <- Z.negb_odd. now rewrite Htie.
Qed.

Lemma signed_double_exact (neg : bool) (m : Z) :
  0 <= m <= two53 -> (neg = true -> m <> 0) ->
  signed_double neg m = Num (if neg then - m else m).
Proof.
  intros Hm Hz. unfold signed_double.
  destruct neg; cbn [andb].
  - destruct (Z.eqb_spec m 0) as [E|_]; [now elim Hz|].
    apply to_double_exact. lia.
  - apply to_double_exact. lia.
Qed.

Ltac all_chars c :=
  destruct c as [[] [] [] [] [] [] [] []].

Ltac in_table := cbn; repeat (first [left; reflexivity | right]).

Lemma white_is_white (c : ascii) : white c <-> is_white c = true.
Proof.
  unfold white. split.
  - intros H. all_chars c; cbn in H; try reflexivity; exfalso;
      repeat (destruct H as [H|H]; [discriminate H|]); exact H.
  - intros H. all_chars c; try discriminate H; in_table.
Qed.

Lemma decimal_digit_value (d : ascii * Z) :
  In d decimal_digits ->
  digit_value 10 (fst d) = Some (snd d)
  /\ is_white (fst d) = false
  /\ fst d <> "+"%char /\ fst d <> "-"%char
  /\ fst d <> "x"%char /\ fst d <> "X"%char.
Proof.
  intros H. cbn in H.
  repeat (destruct H as [<-|H];
          [repeat split; try reflexivity; discriminate|]).
  destruct H.
Qed.

Lemma hexadecimal_digit_value (d : ascii * Z) :
  In d hexadecimal_digits ->
  digit_value 16 (fst d) = Some (snd d)
  /\ is_white (fst d) = false
  /\ fst d <> "+"%char /\ fst d <> "-"%char.
Proof.
  intros H. cbn in H.
  repeat (destruct H as [<-|H];
          [repeat split; try reflexivity; discriminate|]).
  destruct H.
Qed.

Lemma not_decimal_digit (c : ascii) :
  ~ In c (map fst decimal_digits) -> digit_value 10 c = None.
Proof.
  intros H. all_chars c; try reflexivity; exfalso; apply H; in_table.
Qed.

Lemma not_hexadecimal_digit (c : ascii) :
  ~ In c (map fst hexadecimal_digits) -> digit_value 16 c = None.
Proof.
  intros H. all_chars c; try reflexivity; exfalso; apply H; in_table.
Qed.

Lemma trim_start_white (ws s : string) :
  every white ws -> trim_start (ws ++ s) = trim_start s.
Proof.
  induction ws as [|c ws IH]; [reflexivity|].
  intros [Hc Hws]. cbn [String.append trim_start].
  apply white_is_white in Hc. rewrite Hc. now apply IH.
Qed.

Lemma trim_start_none (s : string) :
  (forall c, first_char s = Some c -> is_white c = false) -> trim_start s = s.
Proof.
  destruct s as [|c r]; [reflexivity|].
  intros H. cbn [trim_start]. now rewrite (H c eq_refl).
Qed.

Lemma strip_sign_none (s : string) :
  (forall c, first_char s = Some c -> c <> "+"%char /\ c <> "-"%char) ->
  strip_sign s = (1, s).
Proof.
  destruct s as [|c r]; [reflexivity|].
  intros H. destruct (H c eq_refl) as [Hp Hm].
  unfold strip_sign. all_chars c; try reflexivity; congruence.
Qed.

Lemma strip_hex_prefix_none (s : string) :
  (forall r, s = String "0" r -> no_hex_mark r) ->
  strip_hex_prefix s = (10, s).
Proof.
  intros H. destruct s as [|c r]; [reflexivity|].
  unfold strip_hex_prefix.
  all_chars c; try reflexivity.
  destruct r as [|c' r']; [reflexivity|].
  destruct (H _ eq_refl c' eq_refl) as [Hx HX].
  all_chars c'; try reflexivity; congruence.
Qed.

Section Digits.
Variable radix : Z.
Variable table : list (ascii * Z).
Hypothesis table_in :
  forall d, In d table -> digit_value radix (fst d) = Some (snd d).
Hypothesis table_out :
  forall c, ~ In c (map fst table) -> digit_value radix c = None.

Lemma read_digits_end (t : string) (acc : option Z) :
  ends_numeral table t -> read_digits radix t acc = acc.
Proof.
  destruct t as [|c r]; [reflexivity|].
  intros H. cbn [read_digits]. now rewrite (table_out _ (H c eq_refl)).
Qed.

Lemma read_digits_from (ds : list (ascii * Z)) (t : string) (a : Z) :
  Forall (fun d => In d table) ds -> ends_numeral table t ->
  read_digits radix (numeral_text ds ++ t) (Some a)
  = Some (fold_left (fun a d => a * radix + snd d) ds a).
Proof.
  intros Hds Ht. revert a.
  induction Hds as [|d ds Hd _ IH]; intros a.
  - cbn [numeral_text String.append fold_left]. now apply read_digits_end.
  - cbn [numeral_text String.append read_digits fold_left].
    rewrite (table_in _ Hd). apply IH.
Qed.

Lemma read_digits_numeral (ds : list (ascii * Z)) (t : string) :
  numeral table ds -> ends_numeral table t ->
  read_digits radix (numeral_text ds ++ t) None
  = Some (numeral_value radix ds).
Proof.
  intros [Hne Hds] Ht. destruct ds as [|d ds]; [now elim Hne|].
  inversion Hds as [|? ? Hd Hrest]; subst.
  cbn [numeral_text String.append read_digits].
  rewrite (table_in _ Hd), (read_digits_from (snd d) Hrest Ht).
  unfold numeral_value. cbn [fold_left]. reflexivity.
Qed.
End Digits.

Lemma parseInt_signed (ws : string) (sg : sign_mark) (u : string) :
  every white ws ->
  (forall c, first_char u = Some c ->
             sg = NoSign -> ~ white c /\ c <> "+"%char /\ c <> "-"%char) ->
  parseInt (JStr (ws ++ sign_text sg ++ u))
  = let '(radix, numeral) := strip_hex_prefix u in
    match read_digits radix numeral None with
    | None => NaN
    | Some m => signed_double (minus sg) m
    end.
Proof.
  intros Hws Hu. unfold parseInt. cbn [ToString].
  rewrite (trim_start_white ws _ Hws).
  assert (Hsign : strip_sign (trim_start (sign_text sg ++ u))
                  = ((if minus sg then -1 else 1), u)).
  { destruct sg; cbn [sign_text String.append minus]; try reflexivity.
    rewrite trim_start_none.
    - apply strip_sign_none. intros c Hc. now apply (Hu c Hc).
    - intros c Hc. destruct (Hu c Hc eq_refl) as [Hw _].
      destruct (is_white c) eqn:E; [|reflexivity].
      elim Hw. now apply white_is_white. }
  rewrite Hsign. destruct (strip_hex_prefix u) as [radix numeral].
  destruct (read_digits radix numeral None) as [m|]; [|reflexivity].
  unfold signed_double. destruct (minus sg).
  - change (-1 <? 0) with true. cbn [andb].
    now replace (-1 * m) with (- m) by lia.
  - change (1 <? 0) with false. cbn [andb].
    now rewrite Z.mul_1_l.
Qed.

Lemma first_char_numeral (table ds : list (ascii * Z)) (t : string) (c : ascii) :
  numeral table ds -> first_char (numeral_text ds ++ t) = Some c ->
  exists d, In d table /\ fst d = c.
Proof.
  intros [Hne Hds]. destruct ds as [|d ds]; [now elim Hne|].
  inversion Hds; subst. cbn. intros [= <-]. eauto.
Qed.

(** A decimal numeral, after white space and an optional sign and before
    text that does not go on with a digit, is read as its value. *)
Lemma parseInt_decimal (ws : string) (sg : sign_mark)
    (ds : list (ascii * Z)) (t : string) :
  every white ws -> numeral decimal_digits ds ->
  ends_numeral decimal_digits t ->
  (ds = [("0"%char, 0)] -> no_hex_mark t) ->
  parseInt (JStr (ws ++ sign_text sg ++ numeral_text ds ++ t))
  = signed_double (minus sg) (numeral_value 10 ds).
Proof.
  intros Hws Hds Ht Hhex.
  rewrite parseInt_signed; [|assumption|].
  - rewrite strip_hex_prefix_none.
    + rewrite (@read_digits_numeral 10 decimal_digits); try assumption.
      * reflexivity.
      * intros d Hd. apply (decimal_digit_value Hd).
      * apply not_decimal_digit.
    + intros r Hr. destruct Hds as [Hne Hds].
      destruct ds as [|d ds]; [now elim Hne|].
      inversion Hds as [|? ? Hd Hrest]; subst.
      cbn [numeral_text String.append] in Hr. injection Hr as H0 Hr.
      assert (Ed : d = ("0"%char, 0)).
      { cbn in Hd.
        repeat (destruct Hd as [<-|Hd]; [try reflexivity; discriminate H0|]).
        destruct Hd. }
      destruct ds as [|d' ds'].
      * cbn [numeral_text String.append] in Hr. subst r. apply Hhex.
        now rewrite Ed.
      * inversion Hrest as [|? ? Hd' _]; subst.
        intros c Hc. cbn in Hc. injection Hc as <-.
        destruct (decimal_digit_value Hd') as (_ & _ & _ & _ & Hx & HX).
        now split.
  - intros c Hc _.
    destruct (first_char_numeral _ Hds Hc) as (d & Hd & <-).
    destruct (decimal_digit_value Hd) as (_ & Hw & Hp & Hm & _).
    repeat split; try assumption.
    intros W. apply white_is_white in W. congruence.
Qed.

(** A hexadecimal numeral after [0x] or [0X] is read as its value. *)
Lemma parseInt_hexadecimal (ws : string) (sg : sign_mark) (x : ascii)
    (ds : list (ascii * Z)) (t : string) :
  every white ws -> x = "x"%char \/ x = "X"%char ->
  numeral hexadecimal_digits ds -> ends_numeral hexadecimal_digits t ->
  parseInt (JStr (ws ++ sign_text sg
                     ++ String "0" (String x (numeral_text ds ++ t))))
  = signed_double (minus sg) (numeral_value 16 ds).
Proof.
  intros Hws Hx Hds Ht.
  rewrite parseInt_signed; [|assumption|].
  - assert (E : strip_hex_prefix (String "0" (String x (numeral_text ds ++ t)))
                = (16, (numeral_text ds ++ t)%string))
      by (destruct Hx as [-> | ->]; reflexivity).
    rewrite E.
    rewrite (@read_digits_numeral 16 hexadecimal_digits); try assumption.
    + reflexivity.
    + intros d Hd. apply (hexadecimal_digit_value Hd).
    + apply not_hexadecimal_digit.
  - intros c [= <-] _. repeat split; try discriminate.
    intros W. apply white_is_white in W. discriminate W.
Qed.

(** Without a digit where the numeral should start, the result is [NaN]. *)
Lemma parseInt_no_digit (ws : string) (sg : sign_mark) (t : string) :
  every white ws -> ends_numeral decimal_digits t ->
  (sg = NoSign -> no_white_or_sign t) ->
  parseInt (JStr (ws ++ sign_text sg ++ t)) = NaN.
Proof.
  intros Hws Ht Hsg.
  rewrite parseInt_signed; [|assumption|].
  - rewrite strip_hex_prefix_none.
    + now rewrite (@read_digits_end 10 decimal_digits not_decimal_digit).
    + intros r -> . exfalso. apply (Ht "0"%char eq_refl). in_table.
  - intros c Hc E. now apply (Hsg E).
Qed.

Lemma parseInt_no_hexadecimal_digit (ws : string) (sg : sign_mark) (x : ascii)
    (t : string) :
  every white ws -> x = "x"%char \/ x = "X"%char ->
  ends_numeral hexadecimal_digits t ->
  parseInt (JStr (ws ++ sign_text sg ++ String "0" (String x t))) = NaN.
Proof.
  intros Hws Hx Ht.
  rewrite parseInt_signed; [|assumption|].
  - assert (E : strip_hex_prefix (String "0" (String x t)) = (16, t))
      by (destruct Hx as [-> | ->]; reflexivity).
    rewrite E.
    now rewrite (@read_digits_end 16 hexadecimal_digits not_hexadecimal_digit).
  - intros c [= <-] _. repeat split; try discriminate.
    intros W. apply white_is_white in W. discriminate W.
Qed.

(** ** extractData *)

(** C7, as the code has it.  A row of at least ten fields is mapped by
    position: field 3 to [country], field 2 to [province] and field 1 to
    [county] with the empty string turned into [null], field 4 to
    [updatedAt], fields 7, 8 and 9 through [parseInt] to [confirmed],
    [deaths] and [recovered], fields 5 and 6 unparsed to [latitude] and
    [longitude].  [parseInt] skips leading white space, reads an optional
    sign and then the longest run of decimal digits (after [0x] or [0X], of
    hexadecimal digits), ignoring what follows; the result is the value of
    that numeral as a double: the integer itself up to 2^53, the nearest
    double (ties to the even significand, infinity from 2^1024) beyond, and
    [-0] for a negated zero.  It is [NaN] when no digit stands where the
    numeral should start.  The row of the specification's test yields the
    record given there. *)
Theorem extractData_positional :
  (forall (f0 f1 f2 f3 f4 f5 f6 f7 f8 f9 : string) (more : list string),
      extractData (f0 :: f1 :: f2 :: f3 :: f4 :: f5 :: f6 :: f7 :: f8 :: f9 :: more)
      = {| country := JStr f3;
           province := if String.eqb f2 "" then JNull else JStr f2;
           county := if String.eqb f1 "" then JNull else JStr f1;
           updatedAt := JStr f4;
           stats := {| confirmed := parseInt (JStr f7);
                       deaths := parseInt (JStr f8);
                       recovered := parseInt (JStr f9) |};
           coordinates := {| latitude := JStr f5; longitude := JStr f6 |} |})
  /\ (forall ws sg ds t,
         every white ws -> numeral decimal_digits ds ->
         ends_numeral decimal_digits t ->
         (ds = [("0"%char, 0)] -> no_hex_mark t) ->
         parseInt (JStr (ws ++ sign_text sg ++ numeral_text ds ++ t))
         = signed_double (minus sg) (numeral_value 10 ds))
  /\ (forall ws sg x ds t,
         every white ws -> x = "x"%char \/ x = "X"%char ->
         numeral hexadecimal_digits ds -> ends_numeral hexadecimal_digits t ->
         parseInt (JStr (ws ++ sign_text sg
                            ++ String "0" (String x (numeral_text ds ++ t))))
         = signed_double (minus sg) (numeral_value 16 ds))
  /\ (forall ws sg t,
         every white ws -> ends_numeral decimal_digits t ->
         (sg = NoSign -> no_white_or_sign t) ->
         parseInt (JStr (ws ++ sign_text sg ++ t)) = NaN)
  /\ (forall ws sg x t,
         every white ws -> x = "x"%char \/ x = "X"%char ->
         ends_numeral hexadecimal_digits t ->
         parseInt (JStr (ws ++ sign_text sg ++ String "0" (String x t))) = NaN)
  /\ (forall n : nat, parseInt (JStr (string_of_nat n)) = to_double (Z.of_nat n))
  /\ (forall m, signed_double false m = to_double m)
  /\ (forall m, m <> 0 -> signed_double true m = to_double (- m))
  /\ signed_double true 0 = NegZero
  /\ (forall z, Z.abs z <= two53 -> to_double z = Num z)
  /\ (forall z, two53 < Z.abs z ->
        let e := Z.log2 (Z.abs z) - 52 in
        exists q : Z,
          2 ^ 52 <= q <= 2 ^ 53
          /\ 2 * Z.abs (q * 2 ^ e - Z.abs z) <= 2 ^ e
          /\ (2 * Z.abs (q * 2 ^ e - Z.abs z) = 2 ^ e -> Z.even q = true)
          /\ to_double z
             = if 2 ^ 1024 <=? q * 2 ^ e then Infinity (z <? 0)
               else Num (Z.sgn z * (q * 2 ^ e)))
  /\ extractData ["";"";"ProvinceX";"CountryY";"t0";"1.0";"2.0";"10";"2";"1"]
     = {| country := JStr "CountryY";
          province := JStr "ProvinceX";
          county := JNull;
          updatedAt := JStr "t0";
          stats := {| confirmed := Num 10; deaths := Num 2; recovered := Num 1 |};
          coordinates := {| latitude := JStr "1.0"; longitude := JStr "2.0" |} |}.
Proof.
  split; [|split; [|split; [|split; [|split; [|split; [|split; [|split;
    [|split; [|split; [|split]]]]]]]]]].
  - intros. unfold extractData, field. cbn [nth_error].
    f_equal.
    + destruct f2; reflexivity.
    + destruct f1; reflexivity.
  - exact parseInt_decimal.
  - exact parseInt_hexadecimal.
  - exact parseInt_no_digit.
  - exact parseInt_no_hexadecimal_digit.
  - exact parseInt_string_of_nat.
  - reflexivity.
  - intros m Hm. unfold signed_double. cbn [andb].
    now destruct (Z.eqb_spec m 0).
  - reflexivity.
  - exact to_double_exact.
  - exact to_double_rounds.
  - reflexivity.
Qed.

Lemma extractData_positional_witness :
  confirmed (stats (extractData
    ["";"Orange";"California";"US";"t";"33.7";"-117.8";"  -12.5";"n/a";"0x1F"]))
  = Num (-12)
  /\ deaths (stats (extractData
       ["";"Orange";"California";"US";"t";"33.7";"-117.8";"  -12.5";"n/a";"0x1F"]))
     = NaN
  /\ recovered (stats (extractData
       ["";"Orange";"California";"US";"t";"33.7";"-117.8";"  -12.5";"n/a";"0x1F"]))
     = Num 31
  /\ to_double 9007199254740993 = Num 9007199254740992.
Proof.
  destruct extractData_positional
    as (Hmap & Hdec & Hhex & Hnan & _ & _ & _ & Hneg & _ & Hexact & Hround & _).
  rewrite Hmap. cbn [stats confirmed deaths recovered].
  split; [|split; [|split]].
  - change (JStr "  -12.5")
      with (JStr ("  " ++ sign_text MinusSign
                       ++ numeral_text [("1"%char, 1); ("2"%char, 2)] ++ ".5")).
    rewrite (Hdec "  " MinusSign [("1"%char, 1); ("2"%char, 2)] ".5").
    + rewrite Hneg by (vm_compute; discriminate).
      apply Hexact. vm_compute. discriminate.
    + cbn. unfold white. cbn. tauto.
    + split; [discriminate|].
      repeat constructor; cbn; tauto.
    + intros c [= <-]. cbn. intros H.
      repeat (destruct H as [H|H]; [discriminate H|]). exact H.
    + discriminate.
  - apply (Hnan "" NoSign "n/a").
    + exact I.
    + intros c [= <-]. cbn. intros H.
      repeat (destruct H as [H|H]; [discriminate H|]). exact H.
    + intros _ c [= <-]. repeat split; try discriminate.
      unfold white. cbn. intros H.
      repeat (destruct H as [H|H]; [discriminate H|]). exact H.
  - change (JStr "0x1F")
      with (JStr ("" ++ sign_text NoSign
                     ++ String "0" (String "x"
                          (numeral_text [("1"%char, 1); ("F"%char, 15)] ++ "")))).
    rewrite (Hhex "" NoSign "x"%char [("1"%char, 1); ("F"%char, 15)] "").
    + reflexivity.
    + exact I.
    + now left.
    + split; [discriminate|].
      repeat constructor; cbn; tauto.
    + intros c [=].
  - destruct (Hround 9007199254740993) as (q & Hq & Hnear & Heven & ->).
    + vm_compute. reflexivity.
    + change (Z.log2 (Z.abs 9007199254740993) - 52) with 1 in *.
      change (Z.abs 9007199254740993) with 9007199254740993 in *.
      change (2 ^ 1) with 2 in *.
      change (2 ^ 52) with 4503599627370496 in *.
      change (2 ^ 53) with 9007199254740992 in *.
      assert (Eq : q = 4503599627370496 \/ q = 4503599627370497) by lia.
      destruct Eq as [-> | ->]; [reflexivity|].
      discriminate (Heven eq_refl).
Defined.

(** C7 as stated fails: a count field that is not a number but starts with
    digits yields the number of that prefix and not [NaN] (["12abc"] is 12,
    ["1,234"] is 1, ["0x1F"] is 31), and a numeral beyond 2^53 yields the
    nearest double, which is not the integer it denotes. *)
Lemma extractData_reads_numeric_prefix :
  stats (extractData
           ["";"Orange";"California";"US";"t";"33.7";"-117.8";
            "12abc";"1,234";"0x1F"])
  = {| confirmed := Num 12; deaths := Num 1; recovered := Num 31 |}
  /\ confirmed (stats (extractData
       ["";"";"";"US";"t";"33.7";"-117.8";"9007199254740993";"0";"0"]))
     = Num 9007199254740992.
Proof.
  split; reflexivity.
Qed.

(** C4, as the code has it.  A row of fewer than ten fields yields a record
    and no exception; a missing position gives [undefined] for [country],
    [updatedAt], [latitude] and [longitude], [null] for [province] and
    [county], and [NaN] for [confirmed], [deaths] and [recovered]. *)
Theorem extractData_short_row (loc : list string) :
  (List.length loc < 10)%nat ->
  ((List.length loc <= 3)%nat -> country (extractData loc) = JUndefined)
  /\ ((List.length loc <= 2)%nat -> province (extractData loc) = JNull)
  /\ ((List.length loc <= 1)%nat -> county (extractData loc) = JNull)
  /\ ((List.length loc <= 4)%nat -> updatedAt (extractData loc) = JUndefined)
  /\ ((List.length loc <= 5)%nat ->
      latitude (coordinates (extractData loc)) = JUndefined)
  /\ ((List.length loc <= 6)%nat ->
      longitude (coordinates (extractData loc)) = JUndefined)
  /\ ((List.length loc <= 7)%nat ->
      confirmed (stats (extractData loc)) = NaN)
  /\ ((List.length loc <= 8)%nat -> deaths (stats (extractData loc)) = NaN)
  /\ recovered (stats (extractData loc)) = NaN.
Proof.
  intros Hlen.
  assert (Hf : forall i, (List.length loc <= i)%nat -> field loc i = JUndefined).
  { intros i Hi. unfold field.
    now rewrite (proj2 (nth_error_None loc i) Hi). }
  unfold extractData; cbn [country province county updatedAt stats coordinates
                           latitude longitude confirmed deaths recovered].
  repeat split; intros; rewrite Hf by lia; reflexivity.
Qed.

Lemma extractData_short_row_witness :
  country (extractData ["x"; "Orange"; "California"]) = JUndefined
  /\ recovered (stats (extractData ["x"; "Orange"; "California"])) = NaN.
Proof.
  pose proof (@extractData_short_row ["x"; "Orange"; "California"]) as H.
  cbn [List.length] in H.
  destruct (H ltac:(lia)) as (Hc & _ & _ & _ & _ & _ & _ & _ & Hr).
  split; [apply Hc; lia | exact Hr].
Defined.

(** C4 as stated fails: on the empty row the [country] of the record is
    [undefined], which is not [null] (and likewise [updatedAt], [latitude]
    and [longitude]). *)
Lemma extractData_missing_country_not_null :
  (List.length (@nil string) < 10)%nat
  /\ country (extractData []) <> JNull
  /\ updatedAt (extractData []) <> JNull
  /\ latitude (coordinates (extractData [])) <> JNull
  /\ longitude (coordinates (extractData [])) <> JNull.
Proof.
  cbn. repeat split; try lia; discriminate.
Qed.

(** The [province] and [county] of an extracted record are [null] or a
    non-empty string, never [undefined]. *)
Lemma extractData_county_defined (loc : list string) :
  county (extractData loc) <> JUndefined
  /\ province (extractData loc) <> JUndefined.
Proof.
  unfold extractData, or_null. cbn [county province].
  split.
  - destruct (field loc 1) as [| |[|c s]]; discriminate.
  - destruct (field loc 2) as [| |[|c s]]; discriminate.
Qed.

(** ** getCountyJhuDataV2 *)

Lemma filter_res_total (T : Type) (p : Record_ T -> res bool)
    (q : Record_ T -> bool) (data : list (Record_ T)) :
  (forall r, In r data -> p r = Ok (q r)) ->
  filter_res p data = Ok (filter q data).
Proof.
  induction data as [|r rest IH]; intros Hp; [reflexivity|].
  cbn [filter_res filter].
  rewrite (Hp r (or_introl eq_refl)).
  rewrite IH by (intros r' Hr'; apply Hp; now right).
  reflexivity.
Qed.

Lemma lower_char_idempotent (c : ascii) :
  lower_char (lower_char c) = lower_char c.
Proof.
  destruct c as [[] [] [] [] [] [] [] []]; reflexivity.
Qed.

Lemma toLowerCase_idempotent (s : string) :
  toLowerCase (toLowerCase s) = toLowerCase s.
Proof.
  induction s as [|c r IH]; [reflexivity|].
  cbn [toLowerCase]. now rewrite lower_char_idempotent, IH.
Qed.

(** X8.  An argument that is not in lower case matches no county: on a
    collection whose [county] fields are strings or [null] the result is
    empty. *)
Lemma getCountyJhuDataV2_mixed_case (T : Type) (data : list (Record_ T))
    (name : string) :
  toLowerCase name <> name ->
  (forall r, In r data -> county r <> JUndefined) ->
  getCountyJhuDataV2 data (JStr name) = Ok [].
Proof.
  intros Hcase Hdef. unfold getCountyJhuDataV2.
  destruct name as [|c n]; [now elim Hcase|].
  cbn [truthy ToString].
  rewrite (@filter_res_total T _ (fun _ => false)).
  - f_equal. clear. induction data; [reflexivity | cbn [filter]; auto].
  - intros r Hr. specialize (Hdef r Hr). unfold county_is.
    destruct (county r) as [| |cty]; [congruence|reflexivity|].
    destruct (String.eqb_spec (toLowerCase cty) (String c n)) as [E|]; [|reflexivity].
    elim Hcase. rewrite <- E. apply toLowerCase_idempotent.
Qed.

(** C2, as the code has it.  For a collection whose [county] fields are
    strings or [null] and a non-empty argument that is already in lower
    case, the result is exactly the records, in order, whose [county] is a
    string equal to the argument up to letter case. *)
Theorem getCountyJhuDataV2_lower_case_name (T : Type)
    (data : list (Record_ T)) (name : string) :
  name <> "" ->
  toLowerCase name = name ->
  (forall r, In r data -> county r <> JUndefined) ->
  getCountyJhuDataV2 data (JStr name)
  = Ok (filter (fun r => match county r with
                         | JStr c => same_ignoring_case c name
                         | _ => false
                         end) data).
Proof.
  intros Hne Hlow Hdef. unfold getCountyJhuDataV2.
  destruct name as [|c n]; [congruence|].
  cbn [truthy ToString].
  apply filter_res_total.
  intros r Hr. specialize (Hdef r Hr). unfold county_is, same_ignoring_case.
  destruct (county r); [congruence|reflexivity|].
  now rewrite Hlow.
Qed.

Lemma getCountyJhuDataV2_lower_case_name_witness :
  getCountyJhuDataV2
    [ mkRecord (JStr "US") (JStr "California") (JStr "Orange") (JStr "t")
               (mkStats (Num 1) (Num 0) (Num 0))
               (mkCoordinates (JStr "33.7") (JStr "-117.8"));
      mkRecord (JStr "Italy") JNull JNull (JStr "t")
               (mkStats (Num 7) (Num 0) (Num 0))
               (mkCoordinates (JStr "41.9") (JStr "12.5")) ]
    (JStr "orange")
  = Ok [ mkRecord (JStr "US") (JStr "California") (JStr "Orange") (JStr "t")
                  (mkStats (Num 1) (Num 0) (Num 0))
                  (mkCoordinates (JStr "33.7") (JStr "-117.8")) ].
Proof.
  rewrite getCountyJhuDataV2_lower_case_name.
  - reflexivity.
  - discriminate.
  - reflexivity.
  - intros r [<-|[<-|[]]]; discriminate.
Defined.

(** C2 as stated fails: with the argument ["Orange"], the record whose
    county is ["Orange"], equal to the argument up to case (and exactly), is
    not returned. *)
Lemma getCountyJhuDataV2_capitalised_name_misses :
  let r := mkRecord (JStr "US") (JStr "California") (JStr "Orange") (JStr "t")
                    (mkStats (Num 1) (Num 0) (Num 0))
                    (mkCoordinates (JStr "33.7") (JStr "-117.8")) in
  county r = JStr "Orange"
  /\ same_ignoring_case "Orange" "Orange" = true
  /\ getCountyJhuDataV2 [r] (JStr "Orange") = Ok [].
Proof.
  repeat split.
Qed.

(** C10.  The empty string as argument behaves like [null] (and like an
    omitted argument): the result is all records whose [county] is not
    [null]. *)
Theorem getCountyJhuDataV2_empty_name (T : Type) (data : list (Record_ T)) :
  getCountyJhuDataV2 data (JStr "") = getCountyJhuDataV2 data JNull
  /\ getCountyJhuDataV2 data JUndefined = getCountyJhuDataV2 data JNull
  /\ getCountyJhuDataV2 data (JStr "")
     = Ok (filter (fun r => not_null (county r)) data).
Proof.
  repeat split.
Qed.

(** ** jhudataV2 *)

Section IngestProperties.
Variable dateString : string.
Variable axios_get : string -> option string.
Variable csv_fromString : string -> option (list (list string)).
Variable JSON_stringify : list Record -> option string.
Variable jhu_v2 : string.

Let ingest := jhudataV2 dateString axios_get csv_fromString JSON_stringify jhu_v2.

(** When every step succeeds the snapshot is written, once. *)
Lemma jhudataV2_success (w : world) (response serialized : string)
    (parsed : list (list string)) :
  axios_get (url dateString) = Some response ->
  csv_fromString response = Some parsed ->
  JSON_stringify (map extractData (splice1 parsed)) = Some serialized ->
  cache (fst (ingest w)) jhu_v2 = Some serialized
  /\ writes (fst (ingest w)) = writes w ++ [(jhu_v2, serialized)]
  /\ snd (ingest w) = Ok tt.
Proof.
  intros Hget Hcsv Hjson.
  unfold ingest, jhudataV2, try_catch, bind, logger_info, await, ret, redis_set.
  rewrite Hget. cbv beta iota. rewrite Hcsv. cbv beta iota.
  rewrite Hjson. cbn. now rewrite String.eqb_refl.
Qed.
End IngestProperties.

(** C5.  If the request fails, or the parse, or the serialisation, then
    after [jhudataV2] the cache is what it was (under the snapshot key and
    every other), no cache write was made, an error line was logged, and the
    call returned without raising. *)
Theorem jhudataV2_failure_keeps_cache
    (dateString : string) (axios_get : string -> option string)
    (csv_fromString : string -> option (list (list string)))
    (JSON_stringify : list Record -> option string) (jhu_v2 : string)
    (w : world) :
  fails_before_write dateString axios_get csv_fromString JSON_stringify ->
  let after := jhudataV2 dateString axios_get csv_fromString JSON_stringify
                 jhu_v2 w in
  cache (fst after) jhu_v2 = cache w jhu_v2
  /\ cache (fst after) = cache w
  /\ writes (fst after) = writes w
  /\ (exists msg, In (Err msg) (log (fst after)))
  /\ snd after = Ok tt.
Proof.
  intros Hfail after. subst after.
  unfold jhudataV2, try_catch, bind, logger_info, logger_err, await, ret, raise.
  destruct Hfail as [Hget | [(response & Hget & Hcsv)
                            | (response & parsed & Hget & Hcsv & Hjson)]];
    rewrite Hget; cbv beta iota; try rewrite Hcsv; cbv beta iota;
    try rewrite Hjson; cbn;
    (repeat split; try reflexivity);
    eexists; apply in_or_app; right; left; reflexivity.
Qed.

Lemma jhudataV2_failure_keeps_cache_witness :
  let w := mkWorld (fun k => if String.eqb k "jhu_v2" then Some "[]" else None)
                   [] [] in
  let after := jhudataV2 "10-31-2026" (fun _ => None) (fun _ => Some [])
                 (fun _ => Some "[]") "jhu_v2" w in
  cache (fst after) "jhu_v2" = Some "[]" /\ writes (fst after) = []
  /\ snd after = Ok tt.
Proof.
  intros w after.
  destruct (@jhudataV2_failure_keeps_cache "10-31-2026" (fun _ => None)
              (fun _ => Some []) (fun _ => Some "[]") "jhu_v2" w
              (or_introl eq_refl)) as (Hk & _ & Hw & _ & Hr).
  subst after.
  split; [rewrite Hk; reflexivity | split; [exact Hw | exact Hr]].
Defined.

(** ** Lists of keys and property maps *)

(** First-seen order, one element at a time: a key that comes after [l] is
    appended if it does not occur in [l], and changes nothing otherwise. *)
Lemma first_seen_last (l : list string) (k : string) :
  first_seen (l ++ [k])
  = if existsb (String.eqb k) l then first_seen l else first_seen l ++ [k].
Proof.
  induction l as [|a l IH]; [reflexivity|].
  cbn [app first_seen existsb]. rewrite IH.
  destruct (String.eqb_spec k a) as [->|Hka]; cbn [orb].
  - destruct (existsb (String.eqb a) l); [reflexivity|].
    rewrite filter_app. cbn [filter]. rewrite String.eqb_refl. cbn [negb].
    now rewrite app_nil_r.
  - destruct (existsb (String.eqb k) l); [reflexivity|].
    rewrite filter_app. cbn [filter].
    destruct (String.eqb_spec k a); [congruence|]. reflexivity.
Qed.

Lemma first_seen_In (l : list string) (k : string) :
  In k (first_seen l) <-> In k l.
Proof.
  induction l as [|a l IH]; [reflexivity|].
  cbn [first_seen In]. rewrite filter_In, IH.
  destruct (String.eqb_spec k a) as [->|Hka]; cbn [negb]; intuition congruence.
Qed.

Lemma first_seen_NoDup (l : list string) : NoDup (first_seen l).
Proof.
  induction l as [|a l IH]; [constructor|].
  cbn [first_seen]. constructor.
  - rewrite filter_In. rewrite String.eqb_refl. cbn. intuition discriminate.
  - now apply NoDup_filter.
Qed.

Lemma existsb_eqb_In (l : list string) (k : string) :
  existsb (String.eqb k) l = true <-> In k l.
Proof.
  rewrite existsb_exists. split.
  - intros (x & Hx & E). apply String.eqb_eq in E. now subst.
  - intros H. exists k. split; [assumption | apply String.eqb_refl].
Qed.

Section Props.
Context {A : Type}.
Implicit Types (o : props A) (k : string).

Lemma own_last o k (v : A) (k' : string) :
  own (o ++ [(k, v)]) k'
  = match own o k' with
    | Some x => Some x
    | None => if String.eqb k' k then Some v else None
    end.
Proof.
  induction o as [|[k0 v0] o IH]; [reflexivity|].
  cbn [app own]. destruct (String.eqb k' k0); [reflexivity | exact IH].
Qed.

Lemma own_update k (f : A -> A) o (k' : string) :
  own (update k f o) k'
  = if String.eqb k' k then option_map f (own o k') else own o k'.
Proof.
  induction o as [|[k0 v0] o IH]; [now destruct (String.eqb k' k)|].
  cbn [update own].
  destruct (String.eqb_spec k k0) as [->|Hk]; cbn [own].
  - destruct (String.eqb k' k0); reflexivity.
  - rewrite IH.
    destruct (String.eqb_spec k' k0) as [E0|E0];
      destruct (String.eqb_spec k' k) as [E|E]; try reflexivity.
    congruence.
Qed.

Lemma update_keys k (f : A -> A) o : map fst (update k f o) = map fst o.
Proof.
  induction o as [|[k0 v0] o IH]; [reflexivity|].
  cbn [update]. destruct (String.eqb k k0); cbn [map fst]; congruence.
Qed.

Lemma own_None o k : own o k = None <-> ~ In k (map fst o).
Proof.
  induction o as [|[k0 v0] o IH]; cbn [own map fst In]; [tauto|].
  destruct (String.eqb_spec k k0) as [->|Hk]; [|rewrite IH]; intuition congruence.
Qed.

Lemma own_In o k (v : A) : own o k = Some v -> In (k, v) o.
Proof.
  induction o as [|[k0 v0] o IH]; cbn [own In]; [discriminate|].
  destruct (String.eqb_spec k k0) as [->|Hk]; [|now right; apply IH].
  intros [= ->]. now left.
Qed.

Lemma In_own o k (v : A) : NoDup (map fst o) -> In (k, v) o -> own o k = Some v.
Proof.
  induction o as [|[k0 v0] o IH]; cbn [own In map fst]; [tauto|].
  intros Hnd [[= -> ->]|Hin]; [now rewrite String.eqb_refl|].
  inversion Hnd as [|? ? Hk0 Hnd']; subst.
  destruct (String.eqb_spec k k0) as [->|Hk]; [|now apply IH].
  elim Hk0. now apply (in_map fst) in Hin.
Qed.

(** Among distinct keys at most one entry has a given key. *)
Lemma filter_key o k :
  NoDup (map fst o) ->
  filter (fun e => String.eqb (fst e) k) o
  = match own o k with
    | Some v => [(k, v)]
    | None => []
    end.
Proof.
  induction o as [|[k0 v0] o IH]; [reflexivity|].
  intros Hnd. inversion Hnd as [|? ? Hk0 Hnd']; subst.
  cbn [filter own fst]. rewrite (String.eqb_sym k0 k).
  destruct (String.eqb_spec k k0) as [->|Hk]; [|now apply IH].
  rewrite IH by assumption.
  apply own_None in Hk0. now rewrite Hk0.
Qed.
End Props.

Lemma own_map (A B : Type) (f : A -> B) (o : props A) (k : string) :
  own (map (fun e => (fst e, f (snd e))) o) k = option_map f (own o k).
Proof.
  induction o as [|[k0 v0] o IH]; [reflexivity|].
  cbn [map own fst snd]. destruct (String.eqb k k0); [reflexivity | exact IH].
Qed.

(** ** [Object.keys] order *)

Lemma insert_index_perm (A : Type) (n : N) (e : A) (l : list (N * A)) :
  Permutation (map snd (insert_index n e l)) (e :: map snd l).
Proof.
  induction l as [|[m e'] l IH]; [reflexivity|].
  cbn [insert_index]. destruct (n <? m)%N; cbn [map snd]; [reflexivity|].
  rewrite IH. apply perm_swap.
Qed.

Lemma Object_entries_perm (A : Type) (o : props A) :
  Permutation (Object_entries o) o.
Proof.
  unfold Object_entries.
  induction o as [|e o IH]; [reflexivity|].
  cbn [index_entries name_entries fold_right filter].
  fold (index_entries o). fold (name_entries o).
  destruct (array_index (fst e)).
  - rewrite insert_index_perm. cbn [app]. now constructor.
  - rewrite <- Permutation_middle. now constructor.
Qed.

Lemma insert_index_map (A B : Type) (f : A -> B) (n : N) (e : A)
    (l : list (N * A)) :
  insert_index n (f e) (map (fun p => (fst p, f (snd p))) l)
  = map (fun p => (fst p, f (snd p))) (insert_index n e l).
Proof.
  induction l as [|[m e'] l IH]; [reflexivity|].
  cbn [map insert_index fst snd].
  destruct (n <? m)%N; cbn [map fst snd]; [reflexivity | now rewrite IH].
Qed.

(** The order of [Object.keys] does not depend on the values. *)
Lemma Object_entries_map (A B : Type) (f : A -> B) (o : props A) :
  Object_entries (map (fun e => (fst e, f (snd e))) o)
  = map (fun e => (fst e, f (snd e))) (Object_entries o).
Proof.
  unfold Object_entries. rewrite map_app. f_equal.
  - rewrite map_map.
    transitivity (map snd (map (fun p : N * (string * A) =>
                    (fst p, (fst (snd p), f (snd (snd p)))))
                    (index_entries o))); [|now rewrite map_map].
    f_equal.
    induction o as [|e o IH]; [reflexivity|].
    cbn [map index_entries fold_right fst].
    fold (index_entries o).
    fold (index_entries (map (fun e => (fst e, f (snd e))) o)).
    rewrite IH.
    destruct (array_index (fst e)); [|reflexivity].
    apply (insert_index_map (fun e => (fst e, f (snd e)))).
  - induction o as [|e o IH]; [reflexivity|].
    cbn [map name_entries filter fst].
    fold (name_entries o).
    fold (name_entries (map (fun e => (fst e, f (snd e))) o)).
    rewrite IH. now destruct (array_index (fst e)).
Qed.

(** Without array-index keys, [Object.keys] is creation order. *)
Lemma Object_entries_names (A : Type) (o : props A) :
  (forall k, In k (map fst o) -> array_index k = None) ->
  Object_entries o = o.
Proof.
  unfold Object_entries. induction o as [|e o IH]; [reflexivity|].
  intros H. cbn [index_entries name_entries fold_right filter].
  fold (index_entries o). fold (name_entries o).
  rewrite (H (fst e)) by now left.
  assert (IH' := IH (fun k Hk => H k (or_intror Hk))).
  destruct (index_entries o) as [|p l] eqn:E.
  - cbn [map app] in *. now rewrite IH'.
  - exfalso.
    assert (Hlen : List.length (map snd (p :: l) ++ name_entries o) = List.length o)
      by now rewrite IH'.
    assert (Hn : name_entries o = o).
    { unfold name_entries. clear -H. induction o as [|e' o IHo]; [reflexivity|].
      cbn [filter]. rewrite (H (fst e')) by (right; now left).
      f_equal. apply IHo. intros k [Hk|Hk]; apply H; [now left | right; now right]. }
    rewrite Hn in Hlen. rewrite length_app in Hlen. cbn in Hlen. lia.
Qed.

(** ** The loop on contents in closed form *)

Lemma pure_forEach_app (l1 l2 : list Record) (st : list Record * props Record) :
  pure_forEach (l1 ++ l2) st
  = match pure_forEach l1 st with
    | Ok st' => pure_forEach l2 st'
    | Throw => Throw
    end.
Proof.
  revert st. induction l1 as [|r l1 IH]; intros st; [reflexivity|].
  cbn [app pure_forEach]. destruct (pure_callback st r); [apply IH | reflexivity].
Qed.

Lemma group_last (k : string) (data : list Record) (r : Record) :
  group k (data ++ [r])
  = group k data
    ++ (if (county_level r && String.eqb (key r) k)%bool then [r] else []).
Proof.
  unfold group. rewrite filter_app. cbn [filter].
  now destruct (county_level r && String.eqb (key r) k)%bool.
Qed.

Lemma aggregate_last (g : list Record) (r : Record) :
  aggregate (g ++ [r])
  = Some match aggregate g with
         | Some acc => map_stats (fun s => add_stats s (stats r)) acc
         | None => defaultData r
         end.
Proof.
  destruct g as [|r0 g]; cbn [app aggregate].
  - reflexivity.
  - f_equal. unfold map_stats, defaultData. cbn.
    now rewrite map_app, fold_left_app.
Qed.

Lemma no_inherited_key_In (data : list Record) (r : Record) :
  no_inherited_key data = true -> In r data -> county_level r = true ->
  inherited (key r) = false.
Proof.
  unfold no_inherited_key. rewrite forallb_forall. intros H Hin Hc.
  specialize (H r Hin). rewrite Hc in H. cbn [andb] in H.
  now destruct (inherited (key r)).
Qed.

Lemma county_keys_In (data : list Record) (k : string) :
  In k (map key (filter county_level data))
  <-> exists r, In r data /\ county_level r = true /\ key r = k.
Proof.
  rewrite in_map_iff. split.
  - intros (r & <- & Hr). apply filter_In in Hr as [Hin Hc]. eauto.
  - intros (r & Hin & Hc & <-). exists r. split; [reflexivity|].
    apply filter_In. auto.
Qed.

(** What the loop computes: it raises exactly when some county-level record
    is keyed by an inherited property name; otherwise [result] holds the
    other records in order, the keys of [statesResult] are the county-level
    keys in first-seen order, and the value under each key is the aggregate
    of the county-level records with that key. *)
Lemma pure_forEach_spec (data : list Record) :
  match pure_forEach data ([], []) with
  | Ok (passed, states) =>
      no_inherited_key data = true
      /\ passed = map defaultData (filter (fun r => negb (county_level r)) data)
      /\ map fst states = first_seen (map key (filter county_level data))
      /\ forall k, own states k = aggregate (group k data)
  | Throw => no_inherited_key data = false
  end.
Proof.
  induction data as [|r data IH] using rev_ind.
  - cbn. repeat split.
  - rewrite pure_forEach_app.
    assert (Hclean_last :
      no_inherited_key (data ++ [r])
      = (no_inherited_key data && negb (county_level r && inherited (key r)))%bool).
    { unfold no_inherited_key. rewrite forallb_app. cbn [forallb].
      now rewrite andb_true_r. }
    destruct (pure_forEach data ([], [])) as [[passed states]|];
      [|now rewrite Hclean_last, IH].
    destruct IH as (Hclean & Hpassed & Hkeys & Hown).
    rewrite Hclean_last, Hclean. clear Hclean_last.
    cbn [pure_forEach]. unfold pure_callback. cbn [fst snd andb].
    destruct (county_level r) eqn:Hc; cbn [negb andb].
    + unfold get. rewrite Hown.
      destruct (aggregate (group (key r) data)) as [acc|] eqn:Hagg.
      * (* the key is already there: it is not inherited *)
        assert (Hin : In (key r) (map fst states)).
        { destruct (own_None states (key r)) as [_ Hn].
          destruct (in_dec string_dec (key r) (map fst states)) as [|Hno];
            [assumption|].
          specialize (Hn Hno). rewrite Hown, Hagg in Hn. discriminate. }
        rewrite Hkeys, first_seen_In, county_keys_In in Hin.
        destruct Hin as (r0 & Hin0 & Hc0 & Hk0).
        assert (Hni : inherited (key r) = false).
        { rewrite <- Hk0. apply (@no_inherited_key_In data); assumption. }
        rewrite Hni. cbn [negb].
        rewrite !filter_app, !map_app. cbn [filter]. rewrite Hc. cbn [negb map].
        repeat split.
        -- now rewrite app_nil_r.
        -- rewrite update_keys, Hkeys, first_seen_last.
           destruct (existsb (String.eqb (key r)) (map key (filter county_level data)))
             eqn:Hex; [reflexivity|].
           assert (Hyes : existsb (String.eqb (key r))
                            (map key (filter county_level data)) = true)
             by (apply existsb_eqb_In, county_keys_In; eauto).
           congruence.
        -- intros k. rewrite own_update, group_last, Hc. cbn [andb].
           rewrite (String.eqb_sym (key r) k).
           destruct (String.eqb_spec k (key r)) as [->|Hk].
           ++ rewrite aggregate_last, Hown, Hagg. reflexivity.
           ++ rewrite app_nil_r. apply Hown.
      * destruct (inherited (key r)) eqn:Hi; cbn [negb]; [reflexivity|].
        assert (Hnotin : ~ In (key r) (map fst states)).
        { apply own_None. now rewrite Hown. }
        rewrite !filter_app, !map_app. cbn [filter]. rewrite Hc. cbn [negb map fst].
        repeat split.
        -- now rewrite app_nil_r.
        -- rewrite Hkeys, first_seen_last.
           destruct (existsb (String.eqb (key r)) (map key (filter county_level data)))
             eqn:Hex; [|reflexivity].
           elim Hnotin. rewrite Hkeys, first_seen_In. now apply existsb_eqb_In.
        -- intros k. rewrite own_last, group_last, Hc. cbn [andb].
           rewrite (String.eqb_sym (key r) k).
           destruct (String.eqb_spec k (key r)) as [->|Hk].
           ++ rewrite aggregate_last, Hown, Hagg. reflexivity.
           ++ rewrite app_nil_r, Hown. now destruct (aggregate (group k data)).
    + rewrite !filter_app, !map_app. cbn [filter]. rewrite Hc. cbn [negb map].
      repeat split.
      * rewrite Hpassed. reflexivity.
      * now rewrite app_nil_r.
      * intros k. rewrite group_last, Hc. cbn [andb]. rewrite app_nil_r. apply Hown.
Qed.

(** ** The loop on objects against the loop on contents *)

Lemma NoDup_app_disjoint (A : Type) (l1 l2 : list A) (a : A) :
  NoDup (l1 ++ l2) -> In a l1 -> ~ In a l2.
Proof.
  induction l1 as [|x l1 IH]; cbn [app In]; [tauto|].
  intros Hnd [->|Hin] Hin2.
  - inversion Hnd as [|? ? Hx _]; subst. apply Hx, in_or_app. now right.
  - inversion Hnd; subst. now apply IH.
Qed.

Lemma add_into_spec (h : heap) (acc loc : Obj) (a : addr) :
  stats acc <> stats loc ->
  add_into h acc loc a
  = if Nat.eqb a (stats acc)
    then add_stats (h (stats acc)) (h (stats loc))
    else h a.
Proof.
  intros Hne. unfold add_into, store.
  rewrite !Nat.eqb_refl.
  destruct (Nat.eqb_spec (stats loc) (stats acc)) as [E|_]; [congruence|].
  destruct (Nat.eqb a (stats acc)); reflexivity.
Qed.

Lemma read_ext (h h' : heap) (o : Obj) :
  h' (stats o) = h (stats o) -> read h' o = read h o.
Proof. intros E. unfold read, map_stats. now rewrite E. Qed.

Lemma map_read_ext (h h' : heap) (l : list Obj) :
  (forall a, In a (map (@stats addr) l) -> h' a = h a) ->
  map (read h') l = map (read h) l.
Proof.
  intros H. apply map_ext_in. intros o Ho. apply read_ext, H.
  now apply in_map.
Qed.

Lemma states_read_ext (h h' : heap) (states : props Obj) :
  (forall a, In a (map (fun e => stats (snd e)) states) -> h' a = h a) ->
  map (fun e => (fst e, read h' (snd e))) states
  = map (fun e => (fst e, read h (snd e))) states.
Proof.
  intros H. apply map_ext_in. intros e He. f_equal. apply read_ext, H.
  now apply (in_map (fun e => stats (snd e))).
Qed.

(** Writing to the stats object of one accumulator changes the content of
    that entry and of no other. *)
Lemma states_read_update (h h' : heap) (f : Stats -> Stats)
    (states : props Obj) (k : string) (acc : Obj) :
  own states k = Some acc ->
  NoDup (map (fun e => stats (snd e)) states) ->
  h' (stats acc) = f (h (stats acc)) ->
  (forall a, a <> stats acc -> h' a = h a) ->
  map (fun e => (fst e, read h' (snd e))) states
  = update k (map_stats f) (map (fun e => (fst e, read h (snd e))) states).
Proof.
  intros Hown Hnd Hacc Hother.
  induction states as [|[k0 o0] states IH]; [discriminate|].
  cbn [own] in Hown. cbn [map fst snd update].
  inversion Hnd as [|? ? Hfresh Hnd']; subst. cbn [snd] in Hfresh.
  destruct (String.eqb_spec k k0) as [->|Hk].
  - injection Hown as ->. f_equal.
    + f_equal. unfold read, map_stats. cbn. now rewrite Hacc.
    + apply states_read_ext. intros a Ha. apply Hother. congruence.
  - f_equal.
    + f_equal. apply read_ext, Hother. intros E. apply Hfresh. rewrite E.
      apply own_In in Hown. now apply (in_map (fun e => stats (snd e))) in Hown.
    + now apply IH.
Qed.

Lemma callback_sim (st : loop_state) (loc : Obj) :
  NoDup (reachable st) ->
  ~ In (stats loc) (reachable st) ->
  match callback st loc with
  | Ok st' =>
      pure_callback (content st) (read (the_heap st) loc) = Ok (content st')
      /\ (forall a, ~ In a (reachable st) -> the_heap st' a = the_heap st a)
      /\ incl (reachable st') (stats loc :: reachable st)
      /\ NoDup (reachable st')
  | Throw => pure_callback (content st) (read (the_heap st) loc) = Throw
  end.
Proof.
  destruct st as [h pushed states]. unfold reachable, content.
  cbn [the_heap result statesResult].
  intros Hnd Hfresh.
  unfold callback, pure_callback. cbn [the_heap result statesResult fst snd].
  change (county_level (read h loc)) with (county_level loc).
  change (key (read h loc)) with (key loc).
  destruct (county_level loc).
  - unfold get. rewrite own_map.
    destruct (own states (key loc)) as [acc|] eqn:Hown; cbn [option_map].
    + (* add into the accumulator *)
      cbn [the_heap result statesResult].
      assert (Hacc : In (stats acc) (map (fun e => stats (snd e)) states)).
      { apply own_In in Hown.
        now apply (in_map (fun e => stats (snd e))) in Hown. }
      assert (Hne : stats acc <> stats loc).
      { intros E. apply Hfresh, in_or_app. right. now rewrite <- E. }
      repeat split.
      * f_equal. f_equal.
        -- symmetry. apply map_read_ext. intros a Ha.
           rewrite add_into_spec by assumption.
           destruct (Nat.eqb_spec a (stats acc)) as [->|]; [|reflexivity].
           elim (NoDup_app_disjoint _ _ _ Hnd Ha Hacc).
        -- symmetry.
           apply states_read_update with (acc := acc); try assumption.
           ++ now apply NoDup_app_remove_l in Hnd.
           ++ rewrite add_into_spec by assumption. now rewrite Nat.eqb_refl.
           ++ intros a Ha. rewrite add_into_spec by assumption.
              now destruct (Nat.eqb_spec a (stats acc)).
      * intros a Ha. rewrite add_into_spec by assumption.
        destruct (Nat.eqb_spec a (stats acc)) as [->|]; [|reflexivity].
        elim Ha. apply in_or_app. now right.
      * apply incl_tl, incl_refl.
      * assumption.
    + destruct (inherited (key loc)); [reflexivity|].
      cbn [the_heap result statesResult].
      repeat split.
      * now rewrite map_app.
      * rewrite map_app. cbn [map snd]. intros a Ha.
        apply in_app_or in Ha as [Ha|Ha].
        -- right. apply in_or_app. now left.
        -- apply in_app_or in Ha as [Ha|[<-|[]]].
           ++ right. apply in_or_app. now right.
           ++ now left.
      * rewrite map_app, app_assoc. cbn [map snd].
        apply NoDup_app.
        -- assumption.
        -- repeat constructor. intros [].
        -- intros a Ha [<-|[]]. contradiction.
  - cbn [the_heap result statesResult].
    repeat split.
    + now rewrite map_app.
    + rewrite map_app. cbn [map]. intros a Ha.
      apply in_app_or in Ha as [Ha|Ha].
      * apply in_app_or in Ha as [Ha|[<-|[]]].
        -- right. apply in_or_app. now left.
        -- now left.
      * right. apply in_or_app. now right.
    + rewrite map_app. cbn [map].
      apply (Permutation_NoDup (l := stats loc :: map (@stats addr) pushed
                                     ++ map (fun e => stats (snd e)) states)).
      * rewrite <- app_assoc. cbn [app]. apply Permutation_middle.
      * now constructor.
Qed.

Lemma forEach_sim (data : list Obj) :
  forall st : loop_state,
    NoDup (map (@stats addr) data ++ reachable st) ->
    match forEach data st with
    | (h', Ok st') =>
        h' = the_heap st'
        /\ pure_forEach (map (read (the_heap st)) data) (content st)
           = Ok (content st')
    | (_, Throw) =>
        pure_forEach (map (read (the_heap st)) data) (content st) = Throw
    end.
Proof.
  induction data as [|loc rest IH]; intros st Hnd.
  - cbn. auto.
  - cbn [map app] in Hnd. inversion Hnd as [|? ? Hloc Hnd']; subst.
    assert (Hreach : NoDup (reachable st)) by now apply NoDup_app_remove_l in Hnd'.
    assert (Hfresh : ~ In (stats loc) (reachable st))
      by (intros Hin; apply Hloc, in_or_app; now right).
    pose proof (callback_sim st loc Hreach Hfresh) as Hstep.
    cbn [forEach map pure_forEach].
    destruct (callback st loc) as [st'|]; [|now rewrite Hstep].
    destruct Hstep as (Hpure & Hheap & Hincl & Hreach').
    rewrite Hpure.
    assert (Hrest : map (read (the_heap st)) rest = map (read (the_heap st')) rest).
    { symmetry. apply map_read_ext. intros a Ha. apply Hheap.
      now apply (NoDup_app_disjoint _ _ _ Hnd'). }
    rewrite Hrest. apply IH.
    apply NoDup_app; [now apply NoDup_app_remove_r in Hnd' | assumption |].
    intros a Ha Hin. apply Hincl in Hin as [<-|Hin].
    + apply Hloc, in_or_app. now left.
    + now apply (NoDup_app_disjoint _ _ _ Hnd' Ha).
Qed.

(** Fresh objects: distinct addresses, and the content they were built
    from. *)
Lemma alloc_stats (data : list Record) (b : addr) :
  map (@stats addr) (alloc b data) = seq b (List.length data).
Proof.
  revert b. induction data as [|r data IH]; intros b; [reflexivity|].
  cbn [alloc map List.length seq]. now rewrite IH.
Qed.

Lemma alloc_read (data : list Record) :
  forall (b : addr) (h : heap),
    (forall i, (i < List.length data)%nat ->
               h (b + i)%nat = nth i (map (@stats Stats) data) NaN_stats) ->
    map (read h) (alloc b data) = data.
Proof.
  induction data as [|r data IH]; intros b h Hh; [reflexivity|].
  cbn [alloc map]. f_equal.
  - specialize (Hh 0%nat ltac:(cbn; lia)). rewrite Nat.add_0_r in Hh.
    cbn in Hh. unfold read, map_stats. cbn. rewrite Hh. now destruct r.
  - apply IH. intros i Hi.
    specialize (Hh (Datatypes.S i) ltac:(cbn; lia)).
    rewrite Nat.add_succ_r in Hh. exact Hh.
Qed.

Lemma alloc_heap_of (data : list Record) :
  map (read (heap_of data)) (alloc 0%nat data) = data.
Proof. apply alloc_read. intros i _. reflexivity. Qed.

(** The function on contents is the loop on contents followed by the pushes
    in [Object.keys] order. *)
Lemma generalize_parts_pure (data : list Record) :
  generalize_parts data
  = match pure_forEach data ([], []) with
    | Ok (passed, states) => Ok (passed, Object_entries states)
    | Throw => Throw
    end.
Proof.
  unfold generalize_parts.
  pose proof (forEach_sim (alloc 0%nat data) (mkLoop (heap_of data) [] [])) as H.
  cbn [the_heap reachable result statesResult map app] in H.
  rewrite app_nil_r, alloc_stats in H. specialize (H (seq_NoDup _ _)).
  rewrite alloc_heap_of in H. unfold content in H at 1 3. cbn in H.
  destruct (forEach (alloc 0%nat data) (mkLoop (heap_of data) [] []))
    as [h [st|]]; [|now rewrite H].
  destruct H as [-> H]. rewrite H. unfold content.
  now rewrite Object_entries_map.
Qed.

(** With distinct keys, looking up every key of [Object.keys] gives the
    values in that order. *)
Lemma pushed_states_entries (states : props Obj) :
  NoDup (map fst states) ->
  pushed_states states = map snd (Object_entries states).
Proof.
  intros Hnd. unfold pushed_states, Object_keys.
  assert (Hin : forall e, In e (Object_entries states) -> In e states).
  { intros e He. eapply Permutation_in; [apply Object_entries_perm | exact He]. }
  induction (Object_entries states) as [|[k v] l IH]; [reflexivity|].
  cbn [map flat_map fst snd]. unfold get at 1.
  rewrite (In_own states k v Hnd (Hin _ (or_introl eq_refl))).
  cbn [app]. f_equal. apply IH. intros e He. apply Hin. now right.
Qed.

Lemma generalize_from_parts (data : list Record) :
  generalize data
  = match generalize_parts data with
    | Ok (passed, aggregated) => Ok (passed ++ map snd aggregated)
    | Throw => Throw
    end.
Proof.
  unfold generalize, generalize_parts, generalizedJhudataV2.
  pose proof (forEach_sim (alloc 0%nat data) (mkLoop (heap_of data) [] [])) as H.
  cbn [the_heap reachable result statesResult map app] in H.
  rewrite app_nil_r, alloc_stats in H. specialize (H (seq_NoDup _ _)).
  rewrite alloc_heap_of in H. unfold content in H at 1 3. cbn in H.
  pose proof (pure_forEach_spec data) as Hspec.
  destruct (forEach (alloc 0%nat data) (mkLoop (heap_of data) [] []))
    as [h [st|]]; [|reflexivity].
  destruct H as [_ H]. rewrite H in Hspec.
  unfold content in Hspec. destruct Hspec as (_ & _ & Hkeys & _).
  rewrite map_map in Hkeys. cbn [fst] in Hkeys.
  rewrite pushed_states_entries
    by (change (fun x : string * Obj => fst x) with (@fst string Obj) in Hkeys;
        rewrite Hkeys; apply first_seen_NoDup).
  now rewrite map_app, !map_map.
Qed.

(** The outcome of [generalize_parts], in closed form. *)
Lemma generalize_parts_spec (data : list Record) :
  match generalize_parts data with
  | Ok (passed, aggregated) =>
      no_inherited_key data = true
      /\ passed = map defaultData (filter (fun r => negb (county_level r)) data)
      /\ Permutation (map fst aggregated)
           (first_seen (map key (filter county_level data)))
      /\ (no_index_key data = true ->
          map fst aggregated = first_seen (map key (filter county_level data)))
      /\ forall k, own aggregated k = aggregate (group k data)
  | Throw => no_inherited_key data = false
  end.
Proof.
  rewrite generalize_parts_pure.
  pose proof (pure_forEach_spec data) as H.
  destruct (pure_forEach data ([], [])) as [[passed states]|]; [|exact H].
  destruct H as (Hclean & Hpassed & Hkeys & Hown).
  assert (Hperm : Permutation (Object_entries states) states)
    by apply Object_entries_perm.
  assert (Hnd : NoDup (map fst states))
    by (rewrite Hkeys; apply first_seen_NoDup).
  repeat split; try assumption.
  - rewrite <- Hkeys. now apply Permutation_map.
  - intros Hidx. rewrite Object_entries_names; [assumption|].
    intros k Hk. rewrite Hkeys, first_seen_In, county_keys_In in Hk.
    destruct Hk as (r & Hin & Hc & <-).
    unfold no_index_key in Hidx. rewrite forallb_forall in Hidx.
    specialize (Hidx r Hin). rewrite Hc in Hidx. cbn [andb] in Hidx.
    now destruct (array_index (key r)).
  - intros k. rewrite <- Hown.
    assert (Hnd' : NoDup (map fst (Object_entries states)))
      by (eapply Permutation_NoDup; [apply Permutation_map, Permutation_sym, Hperm | assumption]).
    destruct (own states k) as [v|] eqn:E.
    + apply In_own; [assumption|].
      eapply Permutation_in; [apply Permutation_sym, Hperm | now apply own_In].
    + apply own_None. apply own_None in E. intros Hin. apply E.
      eapply Permutation_in; [apply Permutation_map, Hperm | exact Hin].
Qed.

(** ** Sums *)

Lemma jsadd_NaN_r (x : jsnum) : jsadd x NaN = NaN.
Proof. now destruct x. Qed.

Lemma fold_jsadd_NaN (l : list jsnum) : fold_left jsadd l NaN = NaN.
Proof. induction l; [reflexivity | exact IHl]. Qed.

Lemma fold_jsadd_In_NaN (l : list jsnum) (x : jsnum) :
  In NaN l -> fold_left jsadd l x = NaN.
Proof.
  revert x. induction l as [|y l IH]; intros x; [intros []|].
  intros [->|Hin]; cbn [fold_left].
  - rewrite jsadd_NaN_r. apply fold_jsadd_NaN.
  - now apply IH.
Qed.

Lemma jsadd_exact (a b : Z) :
  Z.abs (a + b) <= two53 -> jsadd (Num a) (Num b) = Num (a + b).
Proof. intros H. now apply to_double_exact. Qed.

Lemma fold_add_stats_fields (l : list Stats) (s : Stats) :
  confirmed (fold_left add_stats l s)
  = fold_left jsadd (map confirmed l) (confirmed s)
  /\ deaths (fold_left add_stats l s)
     = fold_left jsadd (map deaths l) (deaths s)
  /\ recovered (fold_left add_stats l s)
     = fold_left jsadd (map recovered l) (recovered s).
Proof.
  revert s. induction l as [|x l IH]; intros s; [now cbn|].
  cbn [fold_left map]. destruct (IH (add_stats s x)) as (Hc & Hd & Hr).
  now rewrite Hc, Hd, Hr.
Qed.

(** Each count of an aggregate is the chain of [+=] over its group, in
    order, starting from the count of the first record. *)
Lemma aggregate_sums (g : list Record) :
  match aggregate g, g with
  | Some a, first :: rest =>
      confirmed_of a
      = fold_left jsadd (map confirmed_of rest) (confirmed_of first)
      /\ deaths_of a = fold_left jsadd (map deaths_of rest) (deaths_of first)
      /\ recovered_of a
         = fold_left jsadd (map recovered_of rest) (recovered_of first)
  | None, [] => True
  | _, _ => False
  end.
Proof.
  destruct g as [|r rest]; [exact I|].
  cbn [aggregate].
  unfold confirmed_of, deaths_of, recovered_of. cbn [map_stats stats defaultData].
  destruct (fold_add_stats_fields (map (@stats Stats) rest) (stats r))
    as (Hc & Hd & Hr).
  rewrite Hc, Hd, Hr, !map_map. auto.
Qed.

Lemma jsval_eqb_eq (a b : jsval) : jsval_eqb a b = true <-> a = b.
Proof.
  destruct a, b; cbn; try (split; congruence).
  rewrite String.eqb_eq. split; congruence.
Qed.

Lemma aggregated_keys_NoDup (data : list Record) (passed : list Record)
    (aggregated : props Record) :
  generalize_parts data = Ok (passed, aggregated) ->
  NoDup (map fst aggregated).
Proof.
  intros E. pose proof (generalize_parts_spec data) as H. rewrite E in H.
  destruct H as (_ & _ & Hperm & _).
  eapply Permutation_NoDup; [apply Permutation_sym, Hperm|].
  apply first_seen_NoDup.
Qed.

(** [generalize] returns exactly when no county-level record is keyed by a
    property name that objects inherit; otherwise it raises a TypeError. *)
Lemma generalize_returns_iff (data : list Record) :
  (exists out, generalize data = Ok out) <-> no_inherited_key data = true.
Proof.
  rewrite generalize_from_parts.
  pose proof (generalize_parts_spec data) as H.
  destruct (generalize_parts data) as [[passed aggregated]|].
  - split; [intros _; apply H | eauto].
  - rewrite H. split; [intros [? [=]] | discriminate].
Qed.

(** ** generalizedJhudataV2 *)

(** [generalize] either raises (exactly when a county-level record is keyed
    by an inherited property name) or returns; when it returns, a province
    [P] whose key no county-level record of another province shares has an
    aggregated record exactly when the input has county-level records of
    province [P], and each count of that record is the chain of [+=] over
    the counts of those records, in input order. *)
Lemma generalize_sums (data : list Record) :
  match generalize_parts data with
  | Ok (passed, aggregated) =>
      generalize data = Ok (passed ++ map snd aggregated)
      /\ forall P : jsval,
          (forall r, In r data -> county_level r = true ->
                     key r = ToString P -> province r = P) ->
          match counties_of P data with
          | [] => derived_for P aggregated = []
          | first :: rest =>
              exists a,
                derived_for P aggregated = [a]
                /\ confirmed_of a
                   = fold_left jsadd (map confirmed_of rest)
                       (confirmed_of first)
                /\ deaths_of a
                   = fold_left jsadd (map deaths_of rest) (deaths_of first)
                /\ recovered_of a
                   = fold_left jsadd (map recovered_of rest)
                       (recovered_of first)
          end
  | Throw => no_inherited_key data = false
  end.
Proof.
  pose proof (generalize_parts_spec data) as H.
  pose proof (generalize_from_parts data) as Hflat.
  pose proof (@aggregated_keys_NoDup data) as Hnd.
  destruct (generalize_parts data) as [[passed aggregated]|]; [|exact H].
  destruct H as (_ & _ & _ & _ & Hown).
  specialize (Hnd passed aggregated eq_refl).
  split; [exact Hflat|].
  intros P HP.
  assert (Hgroup : counties_of P data = group (ToString P) data).
  { unfold counties_of, group. apply filter_ext_in. intros r Hr.
    destruct (county_level r) eqn:Hc; [cbn [andb] | reflexivity].
    destruct (String.eqb_spec (key r) (ToString P)) as [E|E].
    - apply jsval_eqb_eq. now apply HP.
    - destruct (jsval_eqb (province r) P) eqn:Eq; [|reflexivity].
      apply jsval_eqb_eq in Eq. elim E. unfold key. now rewrite Eq. }
  rewrite Hgroup. unfold derived_for.
  rewrite (filter_key aggregated (ToString P) Hnd), Hown.
  pose proof (aggregate_sums (group (ToString P) data)) as Hsum.
  destruct (aggregate (group (ToString P) data)) as [a|],
           (group (ToString P) data) as [|first rest];
    try contradiction; [|reflexivity].
  exists a. split; [reflexivity | exact Hsum].
Qed.

(** C1.  The sums per province fail on a collection with a county-level
    record without province and one of the province named ["null"]: both
    are stored under the key ["null"], so the one aggregated record sums
    both (3), while the input sums are 2 for the province ["null"] and 1
    for the absent province. *)
Theorem generalize_merges_null_provinces :
  generalize null_provinces
  = Ok [ example (JStr "US") JNull (JStr "Alameda") (Num 3) (Num 0) (Num 0) ]
  /\ (exists passed aggregated,
        generalize_parts null_provinces = Ok (passed, aggregated)
        /\ jsum (map confirmed_of (derived_for (JStr "null") aggregated)) = Num 3
        /\ jsum (map confirmed_of (derived_for JNull aggregated)) = Num 3)
  /\ jsum (map confirmed_of (counties_of (JStr "null") null_provinces)) = Num 2
  /\ jsum (map confirmed_of (counties_of JNull null_provinces)) = Num 1.
Proof.
  split; [reflexivity|]. split; [|split; reflexivity].
  eexists _, _. split; [reflexivity|]. split; reflexivity.
Qed.

(** The accumulator found under a key comes from the first county-level
    record with that key. *)
Lemma aggregate_group_head (data : list Record) (k : string) (a : Record) :
  aggregate (group k data) = Some a ->
  exists first rest,
    group k data = first :: rest
    /\ county_level first = true /\ key first = k
    /\ a = map_stats (fun s => fold_left add_stats (map (@stats Stats) rest) s)
                     (defaultData first).
Proof.
  destruct (group k data) as [|first rest] eqn:E; [discriminate|].
  intros [= <-]. exists first, rest.
  assert (Hin : In first (group k data)) by (rewrite E; now left).
  apply filter_In in Hin as [_ Hp]. apply andb_prop in Hp as [Hc Hk].
  apply String.eqb_eq in Hk. auto.
Qed.

Lemma filter_head (A : Type) (p : A -> bool) (l : list A) (x : A) (t : list A) :
  filter p l = x :: t ->
  exists before after,
    l = before ++ x :: after
    /\ (forall y, In y before -> p y = false)
    /\ p x = true.
Proof.
  induction l as [|y l IH]; [discriminate|].
  cbn [filter]. destruct (p y) eqn:Hy.
  - intros [= -> <-]. exists [], l. repeat split; [intros ? []|assumption].
  - intros E. destruct (IH E) as (before & after & -> & Hb & Hx).
    exists (y :: before), after. repeat split; [|assumption].
    intros z [<-|Hz]; auto.
Qed.

Lemma aggregated_In_own (data passed : list Record) (aggregated : props Record)
    (k : string) (a : Record) :
  generalize_parts data = Ok (passed, aggregated) ->
  In (k, a) aggregated -> aggregate (group k data) = Some a.
Proof.
  intros E Hin. pose proof (generalize_parts_spec data) as H. rewrite E in H.
  destruct H as (_ & _ & _ & _ & Hown). rewrite <- Hown.
  apply In_own; [|assumption]. now apply (@aggregated_keys_NoDup data passed).
Qed.

(** An aggregated record with a non-null province is stored under that
    province's name. *)
Lemma aggregate_province_key (data : list Record) (k : string) (a : Record) :
  aggregate (group k data) = Some a ->
  province a <> JNull -> ToString (province a) = k.
Proof.
  intros Hagg Hnn.
  destruct (aggregate_group_head data k Hagg) as (first & rest & _ & _ & Hk & ->).
  cbn [map_stats province defaultData] in *. unfold or_null in *.
  destruct (truthy (province first)); [exact Hk | congruence].
Qed.

(** [generalize] either raises (exactly when a county-level record is
    keyed by an inherited property name) or returns
    the records without county first, in input order, followed by exactly one
    aggregated record per distinct county-level province key; no two
    aggregated records share a key or a non-null province; and when no
    county-level province key is an array index, the aggregated records are
    in the order in which their keys were first encountered. *)
Lemma generalize_order (data : list Record) :
  match generalize_parts data with
  | Ok (passed, aggregated) =>
      generalize data = Ok (passed ++ map snd aggregated)
      /\ passed = map defaultData (filter (fun r => negb (county_level r)) data)
      /\ NoDup (map fst aggregated)
      /\ (forall k, In k (map fst aggregated)
                    <-> exists r, In r data /\ county_level r = true /\ key r = k)
      /\ (forall e1 e2, In e1 aggregated -> In e2 aggregated ->
                        province (snd e1) = province (snd e2) ->
                        province (snd e1) <> JNull -> e1 = e2)
      /\ (no_index_key data = true ->
          map fst aggregated = first_seen (map key (filter county_level data)))
  | Throw => no_inherited_key data = false
  end.
Proof.
  pose proof (generalize_parts_spec data) as H.
  pose proof (generalize_from_parts data) as Hflat.
  pose proof (@aggregated_keys_NoDup data) as Hnd.
  pose proof (@aggregated_In_own data) as Hin_own.
  destruct (generalize_parts data) as [[passed aggregated]|]; [|exact H].
  destruct H as (_ & Hpassed & Hperm & Horder & Hown).
  specialize (Hnd passed aggregated eq_refl).
  specialize (Hin_own passed aggregated).
  repeat split; try assumption.
  - intros Hk. apply county_keys_In, first_seen_In.
    eapply Permutation_in; [exact Hperm | exact Hk].
  - intros Hk. apply county_keys_In, first_seen_In in Hk.
    eapply Permutation_in; [apply Permutation_sym, Hperm | exact Hk].
  - intros [k1 a1] [k2 a2] H1 H2 Hprov Hnn. cbn [snd] in *.
    pose proof (Hin_own k1 a1 eq_refl H1) as Ha1.
    pose proof (Hin_own k2 a2 eq_refl H2) as Ha2.
    assert (E1 : ToString (province a1) = k1)
      by (eapply aggregate_province_key; eassumption).
    assert (E2 : ToString (province a2) = k2)
      by (eapply aggregate_province_key; [eassumption | congruence]).
    assert (Ek : k1 = k2) by congruence. rewrite Ek in Ha1.
    rewrite Ha1 in Ha2. congruence.
Qed.

(** C6.  The aggregated records are not returned in first-seen order when a
    province name is a numeral: the provinces ["2"] and ["1"] are first
    encountered in this order and their aggregated records are returned in
    the order ["1"], ["2"]; the provinces ["Texas"], ["7"], ["California"],
    ["3"] are returned in the order ["3"], ["7"], ["Texas"],
    ["California"]. *)
Theorem generalize_numbered_provinces_reordered :
  map (@province Stats) numbered_provinces = [JStr "2"; JStr "1"]
  /\ forallb county_level numbered_provinces = true
  /\ generalize numbered_provinces
     = Ok [ example (JStr "US") (JStr "1") (JStr "Butte") (Num 6) (Num 0) (Num 0);
            example (JStr "US") (JStr "2") (JStr "Alameda") (Num 5) (Num 0) (Num 0) ]
  /\ map (@province Stats) mixed_provinces
     = [JStr "Texas"; JStr "7"; JStr "California"; JStr "3"]
  /\ forallb county_level mixed_provinces = true
  /\ match generalize mixed_provinces with
     | Ok out =>
         map (@province Stats) out
         = [JStr "3"; JStr "7"; JStr "Texas"; JStr "California"]
     | Throw => False
     end.
Proof.
  repeat split.
Qed.

(** Whenever [generalize] returns, every county-level record has an
    aggregated record under its province key, and a field that is [NaN] in
    the county-level record is [NaN] in that aggregated record.  ([generalize]
    raises exactly when a county-level record is keyed by an inherited
    property name.) *)
Lemma generalize_propagates_NaN (data : list Record) :
  match generalize_parts data with
  | Ok (passed, aggregated) =>
      generalize data = Ok (passed ++ map snd aggregated)
      /\ forall r, In r data -> county_level r = true ->
           exists a,
             own aggregated (key r) = Some a
             /\ In (key r, a) aggregated
             /\ (confirmed_of r = NaN -> confirmed_of a = NaN)
             /\ (deaths_of r = NaN -> deaths_of a = NaN)
             /\ (recovered_of r = NaN -> recovered_of a = NaN)
  | Throw => no_inherited_key data = false
  end.
Proof.
  pose proof (generalize_parts_spec data) as H.
  pose proof (generalize_from_parts data) as Hflat.
  destruct (generalize_parts data) as [[passed aggregated]|]; [|exact H].
  destruct H as (_ & _ & _ & _ & Hown).
  split; [exact Hflat|].
  intros r Hin Hc.
  assert (Hg : In r (group (key r) data)).
  { apply filter_In. split; [assumption|]. now rewrite Hc, String.eqb_refl. }
  pose proof (aggregate_sums (group (key r) data)) as Hsum.
  rewrite <- Hown in Hsum.
  destruct (own aggregated (key r)) as [a|] eqn:Ea,
           (group (key r) data) as [|first rest];
    try contradiction.
  exists a. destruct Hsum as (Sc & Sd & Sr).
  split; [reflexivity|]. split; [now apply own_In|].
  rewrite Sc, Sd, Sr.
  repeat split; intros HN;
    (destruct Hg as [->|Hg];
     [rewrite HN; apply fold_jsadd_NaN
     | apply fold_jsadd_In_NaN; rewrite <- HN]);
    [apply (in_map confirmed_of) | apply (in_map deaths_of)
    | apply (in_map recovered_of)]; exact Hg.
Qed.

(** C8.  A [NaN] count does not always reach the aggregated record.  The
    rows of [corrupted_rows] extract to [corrupted], whose first record has
    [NaN] for [confirmed].  On these records as extracted, the aggregated
    record has [NaN]; on the records as read back from the cache, where
    [NaN] has become [null], the unreadable count is added as 0 and the
    aggregated record has 10; and for a province named ["constructor"]
    there is no aggregated record, as a TypeError is raised. *)
Theorem generalize_masks_NaN :
  map extractData corrupted_rows = corrupted
  /\ generalize corrupted
     = Ok [ example (JStr "US") (JStr "California") (JStr "Alameda")
                    NaN (Num 1) (Num 2) ]
  /\ map confirmed_of (map JSON_record corrupted) = [NullNum; Num 10]
  /\ generalize (map JSON_record (map extractData corrupted_rows))
     = Ok [ example (JStr "US") (JStr "California") (JStr "Alameda")
                    (Num 10) (Num 1) (Num 2) ]
  /\ forallb county_level corrupted_constructor = true
  /\ map confirmed_of corrupted_constructor = [NaN]
  /\ generalize corrupted_constructor = Throw.
Proof.
  repeat split.
Qed.

(** C9.  Whenever [generalize] returns, every aggregated record takes its
    country, county, update time and coordinates from the first county-level
    record of the input that has its key (its province is that record's, or
    [null] if that is empty); its county is not [null]. *)
Theorem generalize_keeps_first_county (data : list Record) :
  match generalize_parts data with
  | Ok (passed, aggregated) =>
      generalize data = Ok (passed ++ map snd aggregated)
      /\ forall k a, In (k, a) aggregated ->
           exists before first after,
             data = before ++ first :: after
             /\ county_level first = true /\ key first = k
             /\ (forall r, In r before -> county_level r = true -> key r <> k)
             /\ country a = country first
             /\ county a = county first
             /\ county a <> JNull
             /\ updatedAt a = updatedAt first
             /\ coordinates a = coordinates first
             /\ province a = or_null (province first)
  | Throw => no_inherited_key data = false
  end.
Proof.
  pose proof (generalize_parts_spec data) as H.
  pose proof (generalize_from_parts data) as Hflat.
  pose proof (@aggregated_In_own data) as Hin_own.
  destruct (generalize_parts data) as [[passed aggregated]|]; [|exact H].
  split; [exact Hflat|].
  intros k a Hin. specialize (Hin_own passed aggregated k a eq_refl Hin).
  destruct (aggregate_group_head data k Hin_own)
    as (first & rest & Hg & Hc & Hk & ->).
  destruct (filter_head _ data Hg) as (before & after & -> & Hbefore & _).
  exists before, first, after. cbn [map_stats country county updatedAt
                                    coordinates province defaultData].
  repeat split; try assumption.
  - intros r Hr Hcr E. specialize (Hbefore r Hr). rewrite Hcr, E in Hbefore.
    now rewrite String.eqb_refl in Hbefore.
  - unfold county_level in Hc. now destruct (county first).
Qed.

Lemma generalize_keeps_first_county_witness :
  exists passed a,
    generalize_parts california = Ok (passed, [("California", a)])
    /\ county a <> JNull.
Proof.
  pose proof (generalize_keeps_first_county california) as H.
  destruct (generalize_parts california) as [[passed aggregated]|] eqn:E;
    [|discriminate H].
  injection E as <- <-.
  destruct H as (_ & H).
  eexists _, _. split; [reflexivity|].
  destruct (H _ _ (or_introl eq_refl))
    as (before & first & after & _ & _ & _ & _ & _ & _ & Hnn & _).
  exact Hnn.
Defined.

(** ** Sharing between the returned records and the input *)

Lemma filter_res_filter (A : Type) (p : A -> res bool) (l out : list A) :
  filter_res p l = Ok out ->
  out = filter (fun x => match p x with Ok b => b | Throw => false end) l.
Proof.
  revert out. induction l as [|x l IH]; intros out.
  - now intros [= <-].
  - cbn [filter_res filter]. destruct (p x) as [b|]; [|discriminate].
    destruct (filter_res p l) as [kept|]; [|discriminate].
    intros [= <-]. rewrite (IH kept eq_refl). now destruct b.
Qed.

(** The records that [getCountyJhuDataV2] returns are records of the input,
    selected in order; the function reads only their [county] and writes
    nothing. *)
Lemma getCountyJhuDataV2_selects (T : Type) (data out : list (Record_ T))
    (name : jsval) :
  getCountyJhuDataV2 data name = Ok out ->
  exists p, out = filter p data.
Proof.
  unfold getCountyJhuDataV2.
  destruct (truthy match name with JUndefined => JNull | _ => name end).
  - intros H. apply filter_res_filter in H. eauto.
  - intros [= <-]. eauto.
Qed.

(** C3 fails for [generalizedJhudataV2].  The accumulator of a province
    shares the [stats] object of the first county-level record of that
    province, and the loop adds into it.  On three California counties with
    5, 10 and 3 confirmed cases, the first call returns 18 and leaves 18 in
    the first input record; a second call on the same records returns 31. *)
Theorem generalizedJhudataV2_mutates_input :
  let objs := alloc 0%nat california in
  let h0 := heap_of california in
  let h1 := fst (generalizedJhudataV2 h0 objs) in
  let h2 := fst (generalizedJhudataV2 h1 objs) in
  map (read h0) objs = california
  /\ (exists out1,
        snd (generalizedJhudataV2 h0 objs) = Ok out1
        /\ map (read h1) out1
           = [ example (JStr "Italy") JNull JNull (Num 7) (Num 2) (Num 1);
               example (JStr "US") (JStr "California") (JStr "Alameda")
                       (Num 18) NaN (Num 2) ])
  /\ map (read h1) objs
     = [ example (JStr "US") (JStr "California") (JStr "Alameda")
                 (Num 18) NaN (Num 2);
         example (JStr "Italy") JNull JNull (Num 7) (Num 2) (Num 1);
         example (JStr "US") (JStr "California") (JStr "Butte")
                 (Num 10) (Num 0) (Num 2);
         example (JStr "US") (JStr "California") (JStr "Colusa")
                 (Num 3) NaN (Num 0) ]
  /\ (exists out2,
        snd (generalizedJhudataV2 h1 objs) = Ok out2
        /\ map (read h2) out2
           = [ example (JStr "Italy") JNull JNull (Num 7) (Num 2) (Num 1);
               example (JStr "US") (JStr "California") (JStr "Alameda")
                       (Num 31) NaN (Num 4) ]).
Proof.
  cbv zeta. split; [reflexivity|].
  split; [eexists; split; reflexivity|].
  split; [reflexivity|].
  eexists; split; reflexivity.
Qed.

(** * Further properties *)

(** ** jhudataV2: what a run does to the cache and the log *)

(** X1.  When the request, the parse and the serialisation succeed,
    [jhudataV2] stores under the snapshot key the serialisation of the
    records extracted from every row but the first, changes no other key,
    makes exactly that one write, logs the date line and the number of
    records (the number of rows minus the header), and returns. *)
Theorem jhudataV2_writes_snapshot
    (dateString : string) (axios_get : string -> option string)
    (csv_fromString : string -> option (list (list string)))
    (JSON_stringify : list Record -> option string) (jhu_v2 : string)
    (w : world) (response serialized : string) (parsed : list (list string)) :
  axios_get (url dateString) = Some response ->
  csv_fromString response = Some parsed ->
  JSON_stringify (map extractData (tl parsed)) = Some serialized ->
  let after := jhudataV2 dateString axios_get csv_fromString JSON_stringify
                 jhu_v2 w in
  cache (fst after) jhu_v2 = Some serialized
  /\ (forall k, k <> jhu_v2 -> cache (fst after) k = cache w k)
  /\ writes (fst after) = writes w ++ [(jhu_v2, serialized)]
  /\ log (fst after)
     = log w
       ++ [ Info ("USING " ++ dateString ++ ".csv CSSEGISandData")%string;
            Info ("Updated JHU CSSE: "
                  ++ string_of_nat (List.length parsed - 1)
                  ++ " locations")%string ]
  /\ snd after = Ok tt.
Proof.
  intros Hget Hcsv Hjson after. subst after.
  unfold jhudataV2, try_catch, bind, logger_info, await, ret, redis_set, splice1.
  rewrite Hget. cbv beta iota. rewrite Hcsv. cbv beta iota.
  rewrite Hjson. cbn [fst snd cache writes log].
  rewrite String.eqb_refl, length_map.
  repeat split.
  - intros k Hk. now destruct (String.eqb_spec k jhu_v2).
  - rewrite <- app_assoc. cbn [app]. do 4 f_equal.
    destruct parsed; cbn [tl List.length]; [reflexivity|].
    now rewrite Nat.sub_succ, Nat.sub_0_r.
Qed.

Lemma jhudataV2_writes_snapshot_witness :
  let w := mkWorld (fun _ => None) [] [] in
  let after :=
    jhudataV2 "10-31-2026" (fun _ => Some "csv")
      (fun _ => Some [ ["FIPS"; "Admin2"];
                       ["";"";"";"Italy";"t";"41.9";"12.5";"7";"2";"1"] ])
      (fun records => Some (string_of_nat (List.length records)))
      "jhu_v2" w in
  cache (fst after) "jhu_v2" = Some "1"
  /\ writes (fst after) = [("jhu_v2", "1")].
Proof.
  intros w after.
  destruct (@jhudataV2_writes_snapshot "10-31-2026" (fun _ => Some "csv")
              (fun _ => Some [ ["FIPS"; "Admin2"];
                               ["";"";"";"Italy";"t";"41.9";"12.5";"7";"2";"1"] ])
              (fun records => Some (string_of_nat (List.length records)))
              "jhu_v2" w "csv" "1" _ eq_refl eq_refl eq_refl)
    as (Hc & _ & Hw & _).
  subst after. split; [exact Hc | exact Hw].
Defined.

(** X2.  Whatever the collaborators answer, [jhudataV2] returns without
    raising, leaves every key other than the snapshot key alone, extends the
    list of cache writes by at most one write, and makes no write exactly
    when a step before the write fails. *)
Theorem jhudataV2_writes_iff
    (dateString : string) (axios_get : string -> option string)
    (csv_fromString : string -> option (list (list string)))
    (JSON_stringify : list Record -> option string) (jhu_v2 : string)
    (w : world) :
  let after := jhudataV2 dateString axios_get csv_fromString JSON_stringify
                 jhu_v2 w in
  snd after = Ok tt
  /\ (forall k, k <> jhu_v2 -> cache (fst after) k = cache w k)
  /\ (exists more, writes (fst after) = writes w ++ more
                   /\ (List.length more <= 1)%nat
                   /\ forall kv, In kv more -> fst kv = jhu_v2)
  /\ (writes (fst after) = writes w
      <-> fails_before_write dateString axios_get csv_fromString JSON_stringify).
Proof.
  intros after. subst after.
  unfold fails_before_write, jhudataV2, try_catch, bind, logger_info,
    logger_err, await, ret, raise, redis_set, splice1.
  destruct (axios_get (url dateString)) as [response|] eqn:Hget; cbv beta iota;
    [destruct (csv_fromString response) as [parsed|] eqn:Hcsv; cbv beta iota;
     [destruct (JSON_stringify (map extractData (tl parsed)))
        as [serialized|] eqn:Hjson |] |];
    cbn [fst snd cache writes log].
  - split; [reflexivity|]. split.
    { intros k Hk. now destruct (String.eqb_spec k jhu_v2). }
    split.
    { exists [(jhu_v2, serialized)]. repeat split; [cbn; lia|].
      intros kv [<-|[]]. reflexivity. }
    split.
    + intros E. exfalso.
      apply (f_equal (@List.length _)) in E. rewrite length_app in E.
      cbn in E. lia.
    + intros [C|[(r' & C1 & C2)|(r' & p' & C1 & C2 & C3)]];
        [congruence | injection C1 as <-; congruence |].
      exfalso. injection C1 as <-. rewrite Hcsv in C2. injection C2 as <-.
      congruence.
  - repeat split; try reflexivity.
    + exists []. rewrite app_nil_r. repeat split; [cbn; lia | intros ? []].
    + intros _. right. right. eauto.
  - repeat split; try reflexivity.
    + exists []. rewrite app_nil_r. repeat split; [cbn; lia | intros ? []].
    + intros _. right. left. eauto.
  - repeat split; try reflexivity.
    + exists []. rewrite app_nil_r. repeat split; [cbn; lia | intros ? []].
    + intros _. now left.
Qed.

(** ** extractData: what it reads and what it guarantees *)

Lemma or_null_cases (v : jsval) :
  or_null v = JNull \/ exists c s, or_null v = JStr (String c s).
Proof.
  unfold or_null. destruct v as [| |[|c s]]; cbn; eauto.
Qed.

Lemma or_null_idempotent (v : jsval) : or_null (or_null v) = or_null v.
Proof. unfold or_null. now destruct v as [| |[|c s]]. Qed.

(** X3.  Every extracted record is in the normal form that the other
    functions expect: [province] and [county] are [null] or a non-empty
    string (never [undefined], never the empty string), so the record is
    county-level exactly when the row has a non-empty field 1, and
    [defaultData] (the re-defaulting of [province] in
    [generalizedJhudataV2]) leaves the record as it is. *)
Theorem extractData_normal_form (loc : list string) :
  (county (extractData loc) = JNull
   \/ exists c s, county (extractData loc) = JStr (String c s))
  /\ (province (extractData loc) = JNull
      \/ exists c s, province (extractData loc) = JStr (String c s))
  /\ (county_level (extractData loc) = true
      <-> exists c s, nth_error loc 1 = Some (String c s))
  /\ defaultData (extractData loc) = extractData loc.
Proof.
  split; [apply or_null_cases|]. split; [apply or_null_cases|]. split.
  - unfold county_level, extractData, field, or_null. cbn [county].
    destruct (nth_error loc 1) as [[|c s]|]; cbn; split;
      try discriminate; try (intros (? & ? & [=])); eauto.
  - unfold defaultData, extractData. cbn. now rewrite or_null_idempotent.
Qed.

(** X4.  [extractData] reads fields 1 to 9 only: the first field and
    everything after the tenth do not influence the record. *)
Theorem extractData_reads_fields_1_to_9 (f0 g0 : string) (loc : list string) :
  extractData (f0 :: loc) = extractData (g0 :: firstn 9 loc).
Proof.
  assert (Hc : forall (x : string) l i, field (x :: l) (Datatypes.S i) = field l i)
    by reflexivity.
  assert (H : forall i, (i < 9)%nat -> field (firstn 9 loc) i = field loc i).
  { intros i Hi. unfold field. rewrite nth_error_firstn.
    now destruct (Nat.ltb_spec i 9); [|lia]. }
  unfold extractData. rewrite !Hc, !H by lia. reflexivity.
Qed.

(** ** parseInt on counts with a sign or trailing text *)

Lemma read_digits_uint_tail (d : Decimal.uint) (t : string) (acc : Z) :
  match t with
  | EmptyString => True
  | String c _ => is_digit c = false
  end ->
  read_digits 10 (NilEmpty.string_of_uint d ++ t) (Some acc)
  = Some (uint_value d acc).
Proof.
  intros Ht. revert acc.
  induction d; intros acc; cbn; try apply IHd.
  destruct t as [|c r]; [reflexivity|].
  cbn [read_digits]. now rewrite (digit_value_not_digit c Ht).
Qed.

Lemma parseInt_uint_tail (neg : bool) (d : Decimal.uint) (t : string) :
  d <> Decimal.Nil ->
  match t with
  | EmptyString => True
  | String c _ =>
      is_digit c = false
      /\ (d <> Decimal.D0 Decimal.Nil \/ (c <> "x"%char /\ c <> "X"%char))
  end ->
  parseInt (JStr ((if neg then "-" else "") ++ NilEmpty.string_of_uint d ++ t))
  = signed_double neg (uint_value d 0).
Proof.
  intros Hd Ht.
  assert (Ht' : match t with
                | EmptyString => True
                | String c _ => is_digit c = false
                end) by (destruct t; tauto).
  assert (Hhex : d = Decimal.D0 Decimal.Nil ->
                 strip_hex_prefix (String "0" t) = (10, String "0" t)).
  { intros ->. destruct t as [|c r]; [reflexivity|].
    destruct Ht as [_ [C|[Hx HX]]]; [congruence|].
    unfold strip_hex_prefix.
    destruct c as [[] [] [] [] [] [] [] []]; try reflexivity; congruence. }
  assert (Hnil : forall acc, read_digits 10 t (Some acc) = Some acc)
    by (intros acc; apply (read_digits_uint_tail Decimal.Nil t acc Ht')).
  unfold parseInt. cbn [ToString].
  destruct neg; cbn [String.append trim_start]; eval_char_tests;
    cbn [strip_sign];
    (destruct d as [|d|d|d|d|d|d|d|d|d|d]; [congruence| ..];
     [destruct d as [|d|d|d|d|d|d|d|d|d|d] | ..]);
    cbn [NilEmpty.string_of_uint String.append trim_start]; eval_char_tests;
    cbn [strip_sign];
    try (rewrite Hhex by reflexivity);
    cbn [strip_hex_prefix read_digits]; eval_char_tests;
    cbv beta iota;
    try (change (String "0" t) with (NilEmpty.string_of_uint (Decimal.D0 Decimal.Nil) ++ t));
    rewrite ?read_digits_uint_tail by assumption;
    rewrite ?Hnil by assumption;
    unfold signed_double; cbn [uint_value];
    change (-1 <? 0) with true; change (1 <? 0) with false; cbn [andb];
    repeat match goal with
      | |- context [0 * 10 + ?k] => change (0 * 10 + k) with k
      end;
    rewrite ?Z.mul_1_l; change (-1 * ?m) with (- m); reflexivity.
Qed.

Lemma to_uint_zero_only (n : nat) :
  Nat.to_uint n = Decimal.D0 Decimal.Nil -> n = 0%nat.
Proof.
  intros E. rewrite <- (DecimalNat.Unsigned.of_to n), E. reflexivity.
Qed.

(** A count written as a decimal numeral, with an optional minus sign and
    followed by nothing or by text that starts with a non-digit, parses to
    the numeral.  (After a lone ["0"], an [x] would start a hexadecimal
    numeral.) *)
Lemma parseInt_numeral_tail (neg : bool) (n : nat) (t : string) :
  match t with
  | EmptyString => True
  | String c _ =>
      is_digit c = false
      /\ (n <> 0%nat \/ (c <> "x"%char /\ c <> "X"%char))
  end ->
  parseInt (JStr ((if neg then "-" else "") ++ string_of_nat n ++ t))
  = signed_double neg (Z.of_nat n).
Proof.
  intros Ht.
  pose proof (DecimalNat.Unsigned.of_to n) as Hn.
  unfold Nat.of_uint in Hn.
  pose proof (uint_value_of_uint_acc (Nat.to_uint n) 0) as Hv.
  rewrite Hn in Hv. cbn [Z.of_nat] in Hv.
  assert (Hs : string_of_nat n
               = NilEmpty.string_of_uint
                   (match Nat.to_uint n with
                    | Decimal.Nil => Decimal.D0 Decimal.Nil
                    | d => d
                    end)).
  { unfold string_of_nat, NilZero.string_of_uint.
    now destruct (Nat.to_uint n). }
  assert (Hval : uint_value (match Nat.to_uint n with
                            | Decimal.Nil => Decimal.D0 Decimal.Nil
                            | d => d
                            end) 0 = Z.of_nat n).
  { destruct (Nat.to_uint n); exact Hv. }
  rewrite Hs, parseInt_uint_tail.
  - now rewrite Hval.
  - now destruct (Nat.to_uint n).
  - destruct t as [|c r]; [exact I|]. destruct Ht as [Hc Hx].
    split; [exact Hc|]. destruct Hx as [Hn0|Hx]; [left | now right].
    intros E. apply Hn0.
    destruct (Nat.to_uint n) eqn:En; try discriminate E.
    + cbn in Hv. lia.
    + apply to_uint_zero_only. now rewrite En.
Qed.

(** X5.  The three counts are read from the numeral even when the field
    carries a minus sign or trailing text after the numeral (a decimal part,
    a unit): the numeral is kept and the rest is ignored.  The count is the
    double of the signed numeral, which up to 2^53 is the integer itself,
    except that a negative zero is [-0]. *)
Theorem extractData_counts_ignore_trailing_text
    (loc : list string) (neg : bool) (n : nat) (t : string) :
  match t with
  | EmptyString => True
  | String c _ =>
      is_digit c = false
      /\ (n <> 0%nat \/ (c <> "x"%char /\ c <> "X"%char))
  end ->
  let text := ((if neg then "-" else "") ++ string_of_nat n ++ t)%string in
  let value := signed_double neg (Z.of_nat n) in
  (nth_error loc 7 = Some text -> confirmed_of (extractData loc) = value)
  /\ (nth_error loc 8 = Some text -> deaths_of (extractData loc) = value)
  /\ (nth_error loc 9 = Some text -> recovered_of (extractData loc) = value)
  /\ (Z.of_nat n <= two53 -> (neg = true -> n <> 0%nat) ->
      value = Num (if neg then - Z.of_nat n else Z.of_nat n))
  /\ (neg = true -> n = 0%nat -> value = NegZero).
Proof.
  intros Ht text value.
  unfold confirmed_of, deaths_of, recovered_of, extractData, field.
  cbn [stats confirmed deaths recovered].
  split; [|split; [|split; [|split]]];
    try (intros ->; apply parseInt_numeral_tail; exact Ht).
  - intros Hn Hz. apply signed_double_exact; [lia|].
    intros Hneg. specialize (Hz Hneg). lia.
  - intros -> ->. reflexivity.
Qed.

Lemma extractData_counts_ignore_trailing_text_witness :
  confirmed_of
    (extractData ["";"";"";"Italy";"t";"41.9";"12.5";"12.0";"-3";"7 (est.)"])
  = Num 12
  /\ deaths_of
       (extractData ["";"";"";"Italy";"t";"41.9";"12.5";"12.0";"-3";"7 (est.)"])
     = Num (-3).
Proof.
  split.
  - destruct (@extractData_counts_ignore_trailing_text
                ["";"";"";"Italy";"t";"41.9";"12.5";"12.0";"-3";"7 (est.)"]
                false 12 ".0") as (Hc & _ & _ & Hv & _).
    + split; [reflexivity | left; discriminate].
    + rewrite Hc by reflexivity. apply Hv; [vm_compute|]; discriminate.
  - destruct (@extractData_counts_ignore_trailing_text
                ["";"";"";"Italy";"t";"41.9";"12.5";"12.0";"-3";"7 (est.)"]
                true 3 "") as (_ & Hd & _ & Hv & _).
    + exact I.
    + rewrite Hd by reflexivity. apply Hv; [vm_compute|]; discriminate.
Defined.

(** ** getCountyJhuDataV2: errors, composition, lookup *)

Lemma filter_res_throw (A : Type) (p : A -> res bool) (l : list A) :
  filter_res p l = Throw <-> exists x, In x l /\ p x = Throw.
Proof.
  induction l as [|x l IH]; cbn [filter_res In].
  - split; [discriminate | intros (? & [] & _)].
  - destruct (p x) as [b|] eqn:Hx.
    + destruct (filter_res p l) as [kept|].
      * split; [discriminate|].
        intros (y & [<-|Hy] & Hp); [congruence|].
        assert (C : @Ok (list A) kept = Throw) by (apply IH; eauto).
        discriminate C.
      * split; [|reflexivity]. intros _.
        destruct (proj1 IH eq_refl) as (y & Hy & Hp). eauto.
    + split; [eauto | reflexivity].
Qed.

Lemma truthy_default (name : jsval) :
  truthy match name with JUndefined => JNull | _ => name end = truthy name.
Proof. now destruct name. Qed.

Lemma toLowerCase_nonempty (s : string) : s <> "" -> toLowerCase s <> "".
Proof. destruct s; [congruence | discriminate]. Qed.

(** X6.  [getCountyJhuDataV2] raises exactly when it is given a non-empty
    name and some record has an [undefined] county (the method call
    [loc.county.toLowerCase()] on [undefined]); with no name, or the empty
    one, it never raises. *)
Theorem getCountyJhuDataV2_raises_iff (T : Type) (data : list (Record_ T))
    (name : jsval) :
  getCountyJhuDataV2 data name = Throw
  <-> truthy name = true /\ exists r, In r data /\ county r = JUndefined.
Proof.
  unfold getCountyJhuDataV2. rewrite truthy_default.
  destruct (truthy name); [|split; [discriminate | intros [[=] _]]].
  rewrite filter_res_throw. split.
  - intros (r & Hr & Hp). split; [reflexivity|]. exists r. split; [assumption|].
    unfold county_is in Hp. now destruct (county r).
  - intros (_ & r & Hr & Hu). exists r. split; [assumption|].
    unfold county_is. now rewrite Hu.
Qed.

Lemma filter_idempotent (A : Type) (p : A -> bool) (l : list A) :
  filter p (filter p l) = filter p l.
Proof.
  induction l as [|x l IH]; [reflexivity|].
  cbn [filter]. destruct (p x) eqn:Hx; [|exact IH].
  cbn [filter]. now rewrite Hx, IH.
Qed.

(** X7.  A result of [getCountyJhuDataV2] holds only county-level records of
    the input, and asking the same question of the result gives the result
    again. *)
Theorem getCountyJhuDataV2_idempotent (T : Type) (data out : list (Record_ T))
    (name : jsval) :
  getCountyJhuDataV2 data name = Ok out ->
  getCountyJhuDataV2 out name = Ok out
  /\ (forall r, In r out -> In r data /\ county_level r = true)
  /\ (List.length out <= List.length data)%nat.
Proof.
  unfold getCountyJhuDataV2. rewrite truthy_default.
  destruct (truthy name).
  - intros H. apply filter_res_filter in H.
    set (q := fun x : Record_ T =>
                match county_is (ToString match name with
                                          | JUndefined => JNull
                                          | _ => name
                                          end) x with
                | Ok b => b
                | Throw => false
                end) in H.
    assert (Hq : forall r, In r out ->
                   county_is (ToString match name with
                                       | JUndefined => JNull
                                       | _ => name
                                       end) r = Ok true).
    { intros r Hr. rewrite H in Hr. apply filter_In in Hr as [_ Hr].
      unfold q in Hr. now destruct (county_is _ r) as [[]|]. }
    split; [|split].
    + rewrite (filter_res_total _ (fun _ => true) out Hq).
      f_equal. clear. induction out; cbn; congruence.
    + intros r Hr. split.
      * rewrite H in Hr. now apply filter_In in Hr.
      * specialize (Hq r Hr). unfold county_is, county_level in *.
        now destruct (county r).
    + rewrite H. apply filter_length_le.
  - intros [= <-]. split; [|split].
    + now rewrite filter_idempotent.
    + intros r Hr. now apply filter_In in Hr.
    + apply filter_length_le.
Qed.

Lemma getCountyJhuDataV2_idempotent_witness :
  getCountyJhuDataV2
    [ example (JStr "US") (JStr "California") (JStr "Butte")
              (Num 10) (Num 0) (Num 2) ]
    (JStr "butte")
  = Ok [ example (JStr "US") (JStr "California") (JStr "Butte")
                 (Num 10) (Num 0) (Num 2) ].
Proof.
  apply (@getCountyJhuDataV2_idempotent Stats california _ (JStr "butte")).
  reflexivity.
Defined.

Lemma getCountyJhuDataV2_mixed_case_witness :
  getCountyJhuDataV2 california (JStr "Butte") = Ok [].
Proof.
  apply getCountyJhuDataV2_mixed_case.
  - discriminate.
  - intros r [<-|[<-|[<-|[<-|[]]]]]; discriminate.
Defined.

(** X9.  Lookup after extraction: on the records extracted from any rows,
    [getCountyJhuDataV2] does not raise, and a row whose field 1 is a
    non-empty county name is found under the lower-cased name. *)
Theorem getCountyJhuDataV2_finds_extracted (rows : list (list string))
    (row : list string) (c : string) :
  In row rows -> nth_error row 1 = Some c -> c <> "" ->
  (forall name, exists out,
      getCountyJhuDataV2 (map extractData rows) name = Ok out)
  /\ exists out,
       getCountyJhuDataV2 (map extractData rows) (JStr (toLowerCase c)) = Ok out
       /\ In (extractData row) out.
Proof.
  intros Hin Hc Hne.
  assert (Hdef : forall r, In r (map extractData rows) -> county r <> JUndefined).
  { intros r Hr. apply in_map_iff in Hr as (loc & <- & _).
    apply extractData_county_defined. }
  split.
  - intros name. unfold getCountyJhuDataV2.
    destruct (truthy match name with JUndefined => JNull | _ => name end);
      [|eauto].
    destruct (filter_res
                (county_is (ToString match name with
                                     | JUndefined => JNull
                                     | _ => name
                                     end))
                (map extractData rows)) as [out|] eqn:E; [eauto|].
    apply filter_res_throw in E as (r & Hr & Hu).
    unfold county_is in Hu. specialize (Hdef r Hr).
    now destruct (county r).
  - unfold getCountyJhuDataV2.
    assert (Ht : truthy (JStr (toLowerCase c)) = true).
    { pose proof (toLowerCase_nonempty Hne).
      now destruct (toLowerCase c). }
    rewrite Ht. cbn [ToString].
    rewrite (@filter_res_total Stats _
               (fun r => match county r with
                         | JStr x => String.eqb (toLowerCase x) (toLowerCase c)
                         | _ => false
                         end)).
    + eexists. split; [reflexivity|].
      apply filter_In. split; [now apply in_map|].
      unfold extractData, field, or_null. cbn [county]. rewrite Hc.
      destruct c; [congruence|]. cbn [truthy]. apply String.eqb_refl.
    + intros r Hr. specialize (Hdef r Hr). unfold county_is.
      now destruct (county r).
Qed.

Lemma getCountyJhuDataV2_finds_extracted_witness :
  exists out,
    getCountyJhuDataV2
      (map extractData
           [ ["";"Orange";"California";"US";"t";"33.7";"-117.8";"5";"0";"0"] ])
      (JStr "orange") = Ok out
    /\ In (extractData
             ["";"Orange";"California";"US";"t";"33.7";"-117.8";"5";"0";"0"])
          out.
Proof.
  apply (@getCountyJhuDataV2_finds_extracted
           [ ["";"Orange";"California";"US";"t";"33.7";"-117.8";"5";"0";"0"] ]
           ["";"Orange";"California";"US";"t";"33.7";"-117.8";"5";"0";"0"]
           "Orange").
  - now left.
  - reflexivity.
  - discriminate.
Defined.

(** ** generalizedJhudataV2: shape of the result, composition *)

(** What a returned array is made of. *)
Lemma generalize_inv (data out : list Record) :
  generalize data = Ok out ->
  exists passed aggregated,
    generalize_parts data = Ok (passed, aggregated)
    /\ out = passed ++ map snd aggregated
    /\ no_inherited_key data = true
    /\ passed = map defaultData (filter (fun r => negb (county_level r)) data)
    /\ Permutation (map fst aggregated)
         (first_seen (map key (filter county_level data)))
    /\ (no_index_key data = true ->
        map fst aggregated = first_seen (map key (filter county_level data)))
    /\ (forall k, own aggregated k = aggregate (group k data))
    /\ NoDup (map fst aggregated).
Proof.
  rewrite generalize_from_parts.
  pose proof (generalize_parts_spec data) as H.
  pose proof (@aggregated_keys_NoDup data) as Hnd.
  destruct (generalize_parts data) as [[passed aggregated]|]; [|discriminate].
  intros [= <-]. exists passed, aggregated.
  destruct H as (H1 & H2 & H3 & H4 & H5).
  repeat split; try assumption. now apply (Hnd passed aggregated).
Qed.

Lemma first_seen_length (l : list string) :
  (List.length (first_seen l) <= List.length l)%nat.
Proof.
  induction l as [|k l IH]; [reflexivity|].
  cbn [first_seen List.length].
  pose proof (filter_length_le (fun k' => negb (String.eqb k' k)) (first_seen l)).
  lia.
Qed.

Lemma filter_none (A : Type) (p : A -> bool) (l : list A) :
  (forall x, In x l -> p x = false) -> filter p l = [].
Proof.
  induction l as [|x l IH]; intros H; [reflexivity|].
  cbn [filter]. rewrite (H x) by now left.
  apply IH. intros y Hy. apply H. now right.
Qed.

Lemma filter_all (A : Type) (p : A -> bool) (l : list A) :
  (forall x, In x l -> p x = true) -> filter p l = l.
Proof.
  induction l as [|x l IH]; intros H; [reflexivity|].
  cbn [filter]. rewrite (H x) by now left.
  f_equal. apply IH. intros y Hy. apply H. now right.
Qed.

(** X11.  A returned array is never longer than the input: it has one
    record per record without county and one per distinct county-level key.
    On an input without county-level records [generalize] returns every
    record, in order, with its province defaulted, and does not raise. *)
Theorem generalize_length (data : list Record) :
  (forall out, generalize data = Ok out ->
     List.length out
     = (List.length (filter (fun r => negb (county_level r)) data)
        + List.length (first_seen (map key (filter county_level data))))%nat
     /\ (List.length out <= List.length data)%nat)
  /\ (forallb (fun r => negb (county_level r)) data = true ->
      generalize data = Ok (map defaultData data)).
Proof.
  split.
  - intros out H. apply generalize_inv in H
      as (passed & aggregated & _ & -> & _ & -> & Hperm & _).
    rewrite length_app, !length_map.
    apply Permutation_length in Hperm. rewrite length_map in Hperm.
    rewrite Hperm. split; [reflexivity|].
    pose proof (first_seen_length (map key (filter county_level data))) as Hfs.
    rewrite length_map in Hfs.
    pose proof (filter_length county_level data). lia.
  - intros Hnone. rewrite forallb_forall in Hnone.
    destruct (generalize data) as [out|] eqn:E.
    + apply generalize_inv in E
        as (passed & aggregated & _ & -> & _ & -> & Hperm & _).
      rewrite (filter_none county_level data) in Hperm
        by (intros r Hr; specialize (Hnone r Hr); now destruct (county_level r)).
      apply Permutation_sym, Permutation_nil in Hperm.
      destruct aggregated; [|discriminate Hperm].
      rewrite filter_all by assumption. cbn [map]. now rewrite app_nil_r.
    + exfalso.
      assert (Hret : exists out, generalize data = Ok out).
      { apply generalize_returns_iff. unfold no_inherited_key.
        apply forallb_forall. intros r Hr. specialize (Hnone r Hr).
        now destruct (county_level r). }
      destruct Hret as [out Hout]. congruence.
Qed.

Lemma generalize_length_witness :
  generalize [ example (JStr "Italy") (JStr "") JNull (Num 7) (Num 2) (Num 1) ]
  = Ok [ example (JStr "Italy") JNull JNull (Num 7) (Num 2) (Num 1) ].
Proof.
  apply (proj2 (generalize_length
                  [ example (JStr "Italy") (JStr "") JNull
                            (Num 7) (Num 2) (Num 1) ])).
  reflexivity.
Defined.

Lemma inherited_In (k : string) :
  inherited k = true <-> In k Object_prototype_keys.
Proof. unfold inherited. apply existsb_eqb_In. Qed.

Lemma forallb_false_ex (A : Type) (f : A -> bool) (l : list A) :
  forallb f l = false -> exists x, In x l /\ f x = false.
Proof.
  induction l as [|x l IH]; [discriminate|].
  cbn [forallb]. destruct (f x) eqn:Hx; cbn [andb].
  - intros H. destruct (IH H) as (y & Hy & Hf). exists y. split; [now right | exact Hf].
  - intros _. exists x. split; [now left | exact Hx].
Qed.

(** X10.  [generalize] raises a TypeError exactly when some record with a
    non-null county has a province that is the name of a property every
    object inherits ([constructor], [toString], [__proto__], ...); on every
    other input it returns. *)
Theorem generalize_raises_iff (data : list Record) :
  generalize data = Throw
  <-> exists r, In r data /\ county_level r = true
                /\ In (key r) Object_prototype_keys.
Proof.
  pose proof (generalize_returns_iff data) as H.
  split.
  - intros E.
    destruct (no_inherited_key data) eqn:Hno.
    + destruct (proj2 H eq_refl) as [out C]. congruence.
    + apply forallb_false_ex in Hno as (r & Hin & Hr).
      destruct (county_level r) eqn:Hc; [|discriminate Hr].
      destruct (inherited (key r)) eqn:Hi; [|discriminate Hr].
      exists r. split; [assumption|]. split; [assumption|].
      now apply inherited_In.
  - intros (r & Hin & Hc & Hi).
    destruct (generalize data) as [out|] eqn:E; [|reflexivity].
    exfalso. assert (X : no_inherited_key data = true) by (apply H; eauto).
    unfold no_inherited_key in X. rewrite forallb_forall in X.
    specialize (X r Hin). apply inherited_In in Hi. rewrite Hc, Hi in X.
    discriminate X.
Qed.

Lemma defaultData_idempotent (T : Type) (r : Record_ T) :
  defaultData (defaultData r) = defaultData r.
Proof. unfold defaultData. cbn. now rewrite or_null_idempotent. Qed.

Lemma passed_facts (data : list Record) (p : Record) :
  In p (map defaultData (filter (fun r => negb (county_level r)) data)) ->
  county_level p = false /\ defaultData p = p.
Proof.
  intros H. apply in_map_iff in H as (r & <- & Hr).
  apply filter_In in Hr as [_ Hr]. split.
  - change (county_level (defaultData r)) with (county_level r).
    now destruct (county_level r).
  - apply defaultData_idempotent.
Qed.

Lemma aggregated_facts (data : list Record) (k : string) (a : Record) :
  aggregate (group k data) = Some a ->
  county_level a = true /\ defaultData a = a
  /\ exists first, In first data /\ county_level first = true
                   /\ key first = k
                   /\ province a = or_null (province first).
Proof.
  intros H.
  destruct (aggregate_group_head data k H) as (first & rest & Hg & Hc & Hk & ->).
  split; [exact Hc|]. split.
  - unfold defaultData, map_stats. cbn. now rewrite or_null_idempotent.
  - exists first. repeat split; try assumption.
    assert (Hin : In first (group k data)) by (rewrite Hg; now left).
    now apply filter_In in Hin.
Qed.

(** X12.  The county filter applied to a generalized collection returns
    exactly the aggregated records (each keeps the county of its first
    record) and none of the records passed through. *)
Theorem generalize_then_counties (data out : list Record) :
  generalize data = Ok out ->
  exists passed aggregated,
    generalize_parts data = Ok (passed, aggregated)
    /\ out = passed ++ map snd aggregated
    /\ getCountyJhuDataV2 out JNull = Ok (map snd aggregated)
    /\ getCountyJhuDataV2 out JUndefined = Ok (map snd aggregated).
Proof.
  intros H. apply generalize_inv in H
    as (passed & aggregated & Hparts & -> & _ & Hpassed & _ & _ & Hown & Hnd).
  exists passed, aggregated. split; [assumption|]. split; [reflexivity|].
  assert (E : filter county_level (passed ++ map snd aggregated)
              = map snd aggregated).
  { rewrite filter_app, filter_none, filter_all; [reflexivity| |].
    - intros a Ha. apply in_map_iff in Ha as ([k a'] & <- & Hin).
      cbn [snd]. apply (In_own aggregated k a' Hnd) in Hin.
      rewrite Hown in Hin. now apply aggregated_facts in Hin.
    - intros p Hp. rewrite Hpassed in Hp. now apply passed_facts in Hp. }
  unfold getCountyJhuDataV2. cbn [truthy]. now rewrite E.
Qed.

Lemma generalize_then_counties_witness :
  exists out,
    generalize california = Ok out
    /\ getCountyJhuDataV2 out JNull
       = Ok [ example (JStr "US") (JStr "California") (JStr "Alameda")
                      (Num 18) NaN (Num 2) ].
Proof.
  destruct (generalize california) as [out|] eqn:E; [|discriminate E].
  exists out. split; [reflexivity|].
  destruct (generalize_then_counties california E)
    as (passed & aggregated & Hp & _ & Hc & _).
  rewrite Hc. injection Hp as <- <-. reflexivity.
Defined.

Lemma first_seen_NoDup_id (l : list string) : NoDup l -> first_seen l = l.
Proof.
  induction l as [|k l IH]; [reflexivity|].
  intros H. inversion H as [|? ? Hk Hl]; subst.
  cbn [first_seen]. rewrite (IH Hl). f_equal.
  apply filter_all. intros k' Hk'.
  destruct (String.eqb_spec k' k) as [->|]; [contradiction | reflexivity].
Qed.

(** Two property lists with the same keys in the same order, all distinct,
    and the same value under every key are equal. *)
Lemma props_ext (A : Type) (o1 : props A) :
  forall o2 : props A,
    map fst o1 = map fst o2 -> NoDup (map fst o1) ->
    (forall k, own o1 k = own o2 k) -> o1 = o2.
Proof.
  induction o1 as [|[k v] o1 IH]; intros [|[k2 v2] o2] Hk Hnd Hown;
    try discriminate; [reflexivity|].
  cbn [map fst] in Hk. injection Hk as <- Hk.
  inversion Hnd as [|? ? Hfresh Hnd']; subst.
  pose proof (Hown k) as Hv. cbn [own] in Hv. rewrite String.eqb_refl in Hv.
  injection Hv as <-. f_equal.
  apply IH; [assumption | assumption |].
  intros k'. specialize (Hown k'). cbn [own] in Hown.
  destruct (String.eqb_spec k' k) as [Ek|]; [|exact Hown].
  rewrite Ek.
  transitivity (@None A); [|symmetry]; apply own_None; [|rewrite <- Hk]; exact Hfresh.
Qed.

Lemma province_named_or_null (T : Type) (r : Record_ T) :
  province_named r = true -> or_null (province r) = province r.
Proof.
  unfold province_named, or_null. now destruct (province r) as [| |[|c s]].
Qed.

(** X13.  Generalizing twice is generalizing once: when the province of
    every county-level record is [null] or a non-empty string and no
    county-level province key is an array index, [generalize] applied to its
    own result returns that result. *)
Theorem generalize_idempotent (data out : list Record) :
  generalize data = Ok out ->
  provinces_named data = true ->
  no_index_key data = true ->
  generalize out = Ok out.
Proof.
  intros H Hnamed Hidx.
  apply generalize_inv in H
    as (passed & aggregated & _ & -> & Hclean & Hpassed & _ & Horder & Hown & Hnd).
  specialize (Horder Hidx).
  (* the aggregated records are county-level, stored under their own key *)
  assert (Hagg : forall k a, In (k, a) aggregated ->
            county_level a = true /\ defaultData a = a /\ key a = k
            /\ inherited k = false /\ array_index k = None).
  { intros k a Hin. apply (In_own aggregated k a Hnd) in Hin.
    rewrite Hown in Hin.
    destruct (aggregated_facts data k Hin)
      as (Hc & Hd & first & Hfin & Hfc & Hfk & Hprov).
    repeat split; try assumption.
    - unfold key. rewrite Hprov, province_named_or_null; [exact Hfk|].
      unfold provinces_named in Hnamed. rewrite forallb_forall in Hnamed.
      specialize (Hnamed first Hfin). now rewrite Hfc in Hnamed.
    - rewrite <- Hfk. now apply (@no_inherited_key_In data).
    - unfold no_index_key in Hidx. rewrite forallb_forall in Hidx.
      specialize (Hidx first Hfin). rewrite Hfc, Hfk in Hidx.
      now destruct (array_index k). }
  assert (Hpass : forall p, In p passed ->
            county_level p = false /\ defaultData p = p)
    by (intros p Hp; rewrite Hpassed in Hp; now apply passed_facts in Hp).
  assert (Hcounties : filter county_level (passed ++ map snd aggregated)
                      = map snd aggregated).
  { rewrite filter_app, filter_none, filter_all; [reflexivity| |].
    - intros a Ha. apply in_map_iff in Ha as ([k a'] & <- & Hin).
      now apply Hagg in Hin.
    - intros p Hp. now apply Hpass in Hp. }
  assert (Hkeys : map key (map snd aggregated) = map fst aggregated).
  { rewrite map_map. apply map_ext_in. intros [k a] Hin. cbn [fst snd].
    now apply Hagg in Hin. }
  destruct (generalize (passed ++ map snd aggregated)) as [out2|] eqn:E2.
  - apply generalize_inv in E2
      as (passed2 & aggregated2 & _ & -> & _ & -> & _ & Horder2 & Hown2 & Hnd2).
    f_equal. f_equal.
    + (* the passed records *)
      replace (filter (fun r => negb (county_level r)) (passed ++ map snd aggregated))
        with passed.
      * transitivity (map (fun x : Record => x) passed); [|apply map_id].
        apply map_ext_in. intros p Hp. now apply Hpass.
      * rewrite filter_app, filter_all, filter_none;
          [now rewrite app_nil_r | |].
        -- intros a Ha. apply in_map_iff in Ha as ([k a'] & <- & Hin).
           apply Hagg in Hin as [Hc _]. cbn [snd]. now rewrite Hc.
        -- intros p Hp. apply Hpass in Hp as [Hc _]. now rewrite Hc.
    + (* the aggregated records *)
      f_equal. apply props_ext; [| assumption |].
      * rewrite Horder2.
        -- now rewrite Hcounties, Hkeys, first_seen_NoDup_id.
        -- unfold no_index_key. apply forallb_forall. intros r Hr.
           apply in_app_or in Hr as [Hr|Hr].
           ++ apply Hpass in Hr as [Hc _]. now rewrite Hc.
           ++ apply in_map_iff in Hr as ([k a] & <- & Hin).
              apply Hagg in Hin as (_ & _ & Hk & _ & Hi). cbn [snd].
              rewrite Hk, Hi. now rewrite andb_false_r.
      * intros k. rewrite Hown2. unfold group.
        rewrite filter_app, (filter_none _ passed).
        2:{ intros p Hp. apply Hpass in Hp as [Hc _]. now rewrite Hc. }
        cbn [app].
        assert (Hg : filter (fun r => (county_level r && String.eqb (key r) k)%bool)
                            (map snd aggregated)
                     = map snd (filter (fun e => String.eqb (fst e) k) aggregated)).
        { clear -Hagg. induction aggregated as [|[k0 a0] l IH]; [reflexivity|].
          cbn [map filter fst snd].
          destruct (Hagg k0 a0 (or_introl eq_refl)) as (Hc & _ & Hk & _).
          rewrite Hc, Hk. cbn [andb].
          rewrite IH by (intros k' a' H'; apply Hagg; now right).
          now destruct (String.eqb k0 k). }
        rewrite Hg, (filter_key aggregated k Hnd).
        destruct (own aggregated k) as [a|] eqn:Ea; [|reflexivity].
        cbn [map snd aggregate]. f_equal.
        apply own_In in Ea. apply Hagg in Ea as (_ & Hd & _).
        rewrite <- Hd at 2. unfold map_stats, defaultData. cbn. reflexivity.
  - exfalso.
    assert (Hret : exists out2, generalize (passed ++ map snd aggregated) = Ok out2).
    { apply generalize_returns_iff. unfold no_inherited_key.
      apply forallb_forall. intros r Hr.
      apply in_app_or in Hr as [Hr|Hr].
      + apply Hpass in Hr as [Hc _]. now rewrite Hc.
      + apply in_map_iff in Hr as ([k a] & <- & Hin).
        apply Hagg in Hin as (_ & _ & Hk & Hni & _). cbn [snd].
        rewrite Hk, Hni. now rewrite andb_false_r. }
    destruct Hret as [out2 Hout2]. congruence.
Qed.

Lemma generalize_idempotent_witness :
  exists out, generalize california = Ok out /\ generalize out = Ok out.
Proof.
  destruct (generalize california) as [out|] eqn:E; [|discriminate E].
  exists out. split; [reflexivity|].
  apply (generalize_idempotent california E); reflexivity.
Defined.

(** ** generalizedJhudataV2 keeps the totals *)

Lemma filter_perm (A : Type) (p : A -> bool) (l l' : list A) :
  Permutation l l' -> Permutation (filter p l) (filter p l').
Proof.
  induction 1 as [|x l l' _ IH|x y l|l l' l'' _ IH1 _ IH2]; cbn [filter].
  - constructor.
  - destruct (p x); [now constructor | assumption].
  - destruct (p x), (p y); try reflexivity. apply perm_swap.
  - now transitivity (filter p l').
Qed.

Lemma forallb_perm (A : Type) (p : A -> bool) (l l' : list A) :
  Permutation l l' -> forallb p l = forallb p l'.
Proof.
  induction 1 as [|x l l' _ IH|x y l|l l' l'' _ IH1 _ IH2]; cbn [forallb].
  - reflexivity.
  - now rewrite IH.
  - now rewrite !andb_assoc, (andb_comm (p y)).
  - congruence.
Qed.

(** Within the safe range the chain of [+=] is the exact integer sum. *)
Lemma zsum_app (l1 l2 : list Z) : zsum (l1 ++ l2) = zsum l1 + zsum l2.
Proof. induction l1 as [|x l1 IH]; cbn [app zsum] in *; lia. Qed.

Lemma zsum_perm (l1 l2 : list Z) : Permutation l1 l2 -> zsum l1 = zsum l2.
Proof.
  induction 1 as [|x l l' _ IH|x y l|l l' l'' _ IH1 _ IH2];
    cbn [zsum] in *; lia.
Qed.

Lemma magnitudes_nonneg (l : list jsnum) : 0 <= zsum (map magnitude l).
Proof.
  induction l as [|x l IH]; cbn [map zsum] in *; [lia|].
  unfold magnitude at 1. lia.
Qed.

Lemma integers_bound (l : list jsnum) :
  Z.abs (zsum (map integer l)) <= zsum (map magnitude l).
Proof.
  induction l as [|x l IH]; cbn [map zsum] in *; [lia|].
  unfold magnitude at 1. lia.
Qed.

Lemma fold_jsadd_exact (l : list jsnum) (a : Z) :
  forallb is_integer l = true ->
  Z.abs a + zsum (map magnitude l) <= two53 ->
  fold_left jsadd l (Num a) = Num (a + zsum (map integer l)).
Proof.
  revert a. induction l as [|x l IH]; intros a Hint Hsum.
  - cbn. f_equal. lia.
  - cbn [forallb] in Hint. apply andb_prop in Hint as [Hx Hl].
    destruct x as [|z| | |]; try discriminate Hx.
    cbn [map zsum fold_left] in *.
    unfold magnitude at 1 in Hsum. cbn [integer] in *.
    pose proof (magnitudes_nonneg l).
    rewrite jsadd_exact by lia.
    rewrite IH by (try assumption; lia). f_equal. lia.
Qed.

Lemma jsum_exact (l : list jsnum) :
  safe_counts l = true -> jsum l = Num (zsum (map integer l)).
Proof.
  unfold safe_counts, jsum. intros H. apply andb_prop in H as [Hint Hsum].
  apply Z.leb_le in Hsum. rewrite fold_jsadd_exact by (try assumption; lia).
  reflexivity.
Qed.

Lemma chain_exact (x : jsnum) (l : list jsnum) :
  safe_counts (x :: l) = true ->
  fold_left jsadd l x = Num (zsum (map integer (x :: l))).
Proof.
  unfold safe_counts. intros H. apply andb_prop in H as [Hint Hsum].
  apply Z.leb_le in Hsum. cbn [forallb] in Hint.
  apply andb_prop in Hint as [Hx Hl].
  destruct x as [|z| | |]; try discriminate Hx.
  cbn [map zsum] in *. unfold magnitude at 1 in Hsum.
  cbn [integer] in *.
  now rewrite fold_jsadd_exact by (try assumption; lia).
Qed.

Lemma safe_counts_perm (l l' : list jsnum) :
  Permutation l l' -> safe_counts l = safe_counts l'.
Proof.
  intros H. unfold safe_counts.
  rewrite (forallb_perm is_integer H).
  now rewrite (zsum_perm (Permutation_map magnitude H)).
Qed.

Lemma safe_counts_filter (A : Type) (f : A -> jsnum) (p : A -> bool)
    (l : list A) :
  safe_counts (map f l) = true -> safe_counts (map f (filter p l)) = true.
Proof.
  unfold safe_counts. intros H. apply andb_prop in H as [Hint Hsum].
  apply Z.leb_le in Hsum. apply andb_true_intro. split.
  - rewrite forallb_forall in *. intros x Hx. apply Hint.
    apply in_map_iff in Hx as (r & <- & Hr). apply in_map.
    now apply filter_In in Hr.
  - apply Z.leb_le. revert Hsum. clear Hint. generalize two53.
    induction l as [|r l IH]; intros bound Hsum; [exact Hsum|].
    cbn [filter map zsum] in *.
    assert (0 <= magnitude (f r)) by (unfold magnitude; lia).
    destruct (p r); cbn [map zsum].
    + specialize (IH (bound - magnitude (f r))). lia.
    + apply IH. lia.
Qed.

Section Totals.
Variable F : Record -> Z.

Lemma zsum_partition (p : Record -> bool) (l : list Record) :
  zsum (map F l)
  = zsum (map F (filter (fun r => negb (p r)) l)) + zsum (map F (filter p l)).
Proof.
  induction l as [|r l IH]; [reflexivity|].
  cbn [map filter]. destruct (p r); cbn [negb map zsum] in *; lia.
Qed.

(** Sum of the group sums over the given keys. *)
Let G (data : list Record) (k : string) : Z := zsum (map F (group k data)).

Lemma keys_sum_split (g : string -> Z) (k0 : string) (l : list string) :
  NoDup l ->
  zsum (map g l)
  = (if existsb (String.eqb k0) l then g k0 else 0)
    + zsum (map g (filter (fun k => negb (String.eqb k k0)) l)).
Proof.
  induction l as [|k l IH]; intros Hnd.
  - reflexivity.
  - inversion Hnd as [|? ? Hk Hl]; subst.
    cbn [map existsb filter]. specialize (IH Hl).
    rewrite (String.eqb_sym k0 k).
    destruct (String.eqb_spec k k0) as [->|Hne]; cbn [orb negb map].
    + assert (E : existsb (String.eqb k0) l = false).
      { destruct (existsb (String.eqb k0) l) eqn:Ex; [|reflexivity].
        apply existsb_eqb_In in Ex. contradiction. }
      rewrite E in IH. cbn [zsum] in *. lia.
    + cbn [zsum] in *. lia.
Qed.

Lemma groups_total (data : list Record) :
  zsum (map (G data) (first_seen (map key (filter county_level data))))
  = zsum (map F (filter county_level data)).
Proof.
  induction data as [|r data IH]; [reflexivity|].
  cbn [filter]. destruct (county_level r) eqn:Hc.
  - cbn [map first_seen].
    set (FS := first_seen (map key (filter county_level data))) in *.
    assert (Hhead : G (r :: data) (key r) = F r + G data (key r)).
    { unfold G, group. cbn [filter]. rewrite Hc, String.eqb_refl.
      reflexivity. }
    assert (Hrest : map (G (r :: data))
                        (filter (fun k' => negb (String.eqb k' (key r))) FS)
                    = map (G data)
                        (filter (fun k' => negb (String.eqb k' (key r))) FS)).
    { apply map_ext_in. intros k Hk. apply filter_In in Hk as [_ Hk].
      unfold G, group. cbn [filter]. rewrite Hc. cbn [andb].
      rewrite (String.eqb_sym (key r) k).
      now destruct (String.eqb k (key r)). }
    assert (HndFS : NoDup FS) by apply first_seen_NoDup.
    pose proof (keys_sum_split (G data) (key r) HndFS) as Hsplit.
    assert (Hin : (if existsb (String.eqb (key r)) FS
                   then G data (key r) else 0) = G data (key r)).
    { destruct (existsb (String.eqb (key r)) FS) eqn:Ex; [reflexivity|].
      unfold G, group. rewrite (filter_none _ data); [reflexivity|].
      intros x Hx. destruct (county_level x) eqn:Hcx; [|reflexivity].
      destruct (String.eqb_spec (key x) (key r)) as [E|]; [|reflexivity].
      exfalso.
      assert (Hk : In (key r) FS).
      { unfold FS. apply first_seen_In, county_keys_In. eauto. }
      apply existsb_eqb_In in Hk. congruence. }
    rewrite Hin in Hsplit.
    cbn [zsum]. rewrite Hhead, Hrest. lia.
  - rewrite <- IH. f_equal. apply map_ext. intros k.
    unfold G, group. cbn [filter]. now rewrite Hc.
Qed.

(** The sums over the groups and over the records without county add up to
    the sum over the input. *)
Lemma keyed_total (data passed : list Record) (aggregated : props Record) :
  generalize_parts data = Ok (passed, aggregated) ->
  zsum (map F (filter (fun r => negb (county_level r)) data))
  + zsum (map (fun e => G data (fst e)) aggregated)
  = zsum (map F data).
Proof.
  intros E.
  pose proof (generalize_parts_spec data) as H. rewrite E in H.
  destruct H as (_ & _ & Hperm & _).
  rewrite (zsum_partition county_level data). f_equal.
  rewrite <- groups_total.
  rewrite <- (zsum_perm (Permutation_map (G data) Hperm)).
  now rewrite map_map.
Qed.
End Totals.

Lemma zsum_le (A : Type) (g1 g2 : A -> Z) (l : list A) :
  (forall x, In x l -> g1 x <= g2 x) -> zsum (map g1 l) <= zsum (map g2 l).
Proof.
  induction l as [|x l IH]; intros H; cbn [map zsum]; [lia|].
  pose proof (H x (or_introl eq_refl)).
  assert (zsum (map g1 l) <= zsum (map g2 l))
    by (apply IH; intros y Hy; apply H; now right).
  lia.
Qed.

Section Field.
Variable f : Record -> jsnum.
Hypothesis f_defaultData : forall r, f (defaultData r) = f r.
Hypothesis f_aggregate :
  forall first rest a,
    aggregate (first :: rest) = Some a ->
    f a = fold_left jsadd (map f rest) (f first).

(** Within the safe range an aggregated count is the integer sum over its
    group. *)
Lemma aggregate_exact (g : list Record) (a : Record) :
  aggregate g = Some a -> safe_counts (map f g) = true ->
  f a = Num (zsum (map integer (map f g))).
Proof.
  destruct g as [|first rest]; [discriminate|].
  intros Ha Hsafe. rewrite (f_aggregate Ha).
  now apply chain_exact.
Qed.

Lemma generalize_total (data out : list Record) :
  generalize data = Ok out -> safe_counts (map f data) = true ->
  safe_counts (map f out) = true
  /\ zsum (map integer (map f out)) = zsum (map integer (map f data)).
Proof.
  intros H Hsafe.
  rewrite generalize_from_parts in H.
  destruct (generalize_parts data) as [[passed aggregated]|] eqn:E;
    [|discriminate H].
  injection H as <-.
  pose proof (@aggregated_In_own data passed aggregated) as Hown.
  assert (Hagg : forall k a, In (k, a) aggregated ->
                   f a = Num (zsum (map integer (map f (group k data))))).
  { intros k a Hin. apply aggregate_exact; [now apply Hown|].
    now apply safe_counts_filter. }
  pose proof (@keyed_total (fun r => integer (f r)) _ _ _ E) as Hint.
  pose proof (@keyed_total (fun r => magnitude (f r)) _ _ _ E) as Hmag.
  pose proof (generalize_parts_spec data) as Hp. rewrite E in Hp.
  destruct Hp as (_ & -> & _).
  rewrite !map_map, !map_app, !map_map in *.
  assert (Hpass : forall g : jsnum -> Z,
             map (fun r => g (f (defaultData r)))
                 (filter (fun r => negb (county_level r)) data)
             = map (fun r => g (f r))
                 (filter (fun r => negb (county_level r)) data)).
  { intros g. apply map_ext. intros r. now rewrite f_defaultData. }
  split.
  - unfold safe_counts in *. apply andb_prop in Hsafe as [Hi Hs].
    apply Z.leb_le in Hs. apply andb_true_intro. split.
    + rewrite forallb_forall in *. intros x Hx.
      apply in_app_or in Hx as [Hx|Hx].
      * apply in_map_iff in Hx as (r0 & <- & Hr0).
        rewrite f_defaultData. apply Hi, in_map_iff. exists r0.
        split; [reflexivity|]. now apply filter_In in Hr0.
      * apply in_map_iff in Hx as ([k a] & <- & Hin). cbn [snd].
        now rewrite (Hagg k a Hin).
    + apply Z.leb_le. rewrite map_map in Hs.
      rewrite map_app, zsum_app, !map_map, Hpass.
      assert (Hle : zsum (map (fun e : string * Record => magnitude (f (snd e)))
                            aggregated)
                    <= zsum (map (fun e : string * Record =>
                                    zsum (map (fun r => magnitude (f r))
                                            (group (fst e) data)))
                              aggregated)).
      { apply zsum_le. intros [k a] Hin. cbn [fst snd].
        rewrite (Hagg k a Hin). unfold magnitude at 1. cbn [integer].
        rewrite <- (map_map f magnitude). apply integers_bound. }
      lia.
  - rewrite zsum_app, Hpass. rewrite <- Hint. f_equal.
    f_equal. apply map_ext_in. intros [k a] Hin. cbn [fst snd].
    rewrite (Hagg k a Hin), map_map. reflexivity.
Qed.
End Field.

(** X14.  Generalizing keeps the grand totals: for each of [confirmed],
    [deaths] and [recovered], when the counts of the input are integers whose
    magnitudes add up to at most 2^53 (so that no addition rounds), the sum
    over a returned array equals the sum over the input, and the returned
    counts are again in that range. *)
Theorem generalize_keeps_totals (data out : list Record) :
  generalize data = Ok out ->
  (safe_counts (map confirmed_of data) = true ->
   safe_counts (map confirmed_of out) = true
   /\ jsum (map confirmed_of out) = jsum (map confirmed_of data))
  /\ (safe_counts (map deaths_of data) = true ->
      safe_counts (map deaths_of out) = true
      /\ jsum (map deaths_of out) = jsum (map deaths_of data))
  /\ (safe_counts (map recovered_of data) = true ->
      safe_counts (map recovered_of out) = true
      /\ jsum (map recovered_of out) = jsum (map recovered_of data)).
Proof.
  intros H.
  assert (Hagg : forall first rest a,
             aggregate (first :: rest) = Some a ->
             confirmed_of a
             = fold_left jsadd (map confirmed_of rest) (confirmed_of first)
             /\ deaths_of a
                = fold_left jsadd (map deaths_of rest) (deaths_of first)
             /\ recovered_of a
                = fold_left jsadd (map recovered_of rest)
                    (recovered_of first)).
  { intros first rest a Ha.
    pose proof (aggregate_sums (first :: rest)) as Hs.
    now rewrite Ha in Hs. }
  split; [|split]; intros Hsafe;
    match goal with
    | |- safe_counts (map ?f out) = true /\ _ =>
        destruct (@generalize_total f) with (data := data) (out := out)
          as [Hout Hsum];
        try assumption; try reflexivity;
        [intros first rest a Ha; apply (Hagg first rest a Ha)|];
        split; [exact Hout|];
        rewrite (jsum_exact _ Hout), (jsum_exact _ Hsafe); now rewrite Hsum
    end.
Qed.

Lemma generalize_keeps_totals_witness :
  exists out,
    generalize california = Ok out
    /\ jsum (map confirmed_of out) = Num 25
    /\ jsum (map confirmed_of california) = Num 25.
Proof.
  destruct (generalize california) as [out|] eqn:E; [|discriminate E].
  exists out. split; [reflexivity|].
  destruct (generalize_keeps_totals california E) as (Hc & _ & _).
  destruct (Hc eq_refl) as [_ Hsum].
  split; [rewrite Hsum|]; reflexivity.
Defined.

(** ** What generalizedJhudataV2 leaves in its input *)

Lemma callback_states (st st' : loop_state) (loc : Obj) :
  callback st loc = Ok st' ->
  (forall k,
     own (statesResult st') k
     = match own (statesResult st) k with
       | Some a => Some a
       | None => if keyed k loc then Some (defaultData loc) else None
       end)
  /\ (forall e, In e (statesResult st) -> In e (statesResult st'))
  /\ (forall a, (forall e, In e (statesResult st') -> stats (snd e) <> a) ->
                the_heap st' a = the_heap st a).
Proof.
  unfold callback, keyed.
  destruct (county_level loc) eqn:Hc; cbn [andb].
  - unfold get.
    destruct (own (statesResult st) (key loc)) as [acc|] eqn:Hown.
    + intros [= <-]. cbn [statesResult the_heap]. repeat split.
      * intros k. destruct (own (statesResult st) k) eqn:E; [reflexivity|].
        destruct (String.eqb_spec (key loc) k) as [<-|]; [congruence | reflexivity].
      * auto.
      * intros a Ha. unfold add_into, store.
        apply own_In in Hown. specialize (Ha _ Hown). cbn [snd] in Ha.
        destruct (Nat.eqb_spec a (stats acc)) as [->|]; [congruence | reflexivity].
    + destruct (inherited (key loc)); [discriminate|].
      intros [= <-]. cbn [statesResult the_heap]. repeat split.
      * intros k. rewrite own_last, (String.eqb_sym (key loc) k). reflexivity.
      * intros e He. apply in_or_app. now left.
  - intros [= <-]. cbn [statesResult the_heap]. repeat split.
    + intros k. now destruct (own (statesResult st) k).
    + auto.
Qed.

Lemma forEach_states (objs : list Obj) :
  forall (st st' : loop_state) (h' : heap),
    forEach objs st = (h', Ok st') ->
    h' = the_heap st'
    /\ (forall k,
          own (statesResult st') k
          = match own (statesResult st) k with
            | Some a => Some a
            | None => option_map defaultData (hd_error (filter (A:=Obj) (keyed k) objs))
            end)
    /\ (forall e, In e (statesResult st) -> In e (statesResult st'))
    /\ (forall a, (forall e, In e (statesResult st') -> stats (snd e) <> a) ->
                  the_heap st' a = the_heap st a).
Proof.
  induction objs as [|loc objs IH]; intros st st' h' H.
  - cbn in H. injection H as <- <-. repeat split; auto.
    intros k. now destruct (own (statesResult st) k).
  - cbn [forEach] in H.
    destruct (callback st loc) as [st1|] eqn:Hcb; [|discriminate].
    destruct (callback_states st loc Hcb) as (Hown1 & Hmono1 & Hframe1).
    destruct (IH st1 st' h' H) as (Hh & Hown & Hmono & Hframe).
    repeat split; auto.
    + intros k. rewrite Hown, Hown1. cbn [filter].
      destruct (own (statesResult st) k); [reflexivity|].
      now destruct (keyed k loc).
    + intros a Ha. rewrite Hframe by assumption. apply Hframe1.
      intros e He. apply Ha, Hmono, He.
Qed.

Lemma alloc_app (l1 l2 : list Record) (b : addr) :
  alloc b (l1 ++ l2) = alloc b l1 ++ alloc (b + List.length l1)%nat l2.
Proof.
  revert b. induction l1 as [|r l1 IH]; intros b; cbn [app alloc List.length].
  - now rewrite Nat.add_0_r.
  - rewrite IH. do 3 f_equal. lia.
Qed.

Lemma alloc_length (l : list Record) (b : addr) :
  List.length (alloc b l) = List.length l.
Proof.
  revert b. induction l as [|r l IH]; intros b; cbn; [reflexivity | now rewrite IH].
Qed.

Lemma alloc_In (l : list Record) (b : addr) (o : Obj) :
  In o (alloc b l) ->
  (b <= stats o < b + List.length l)%nat
  /\ exists r, In r l /\ o = map_stats (fun _ => stats o) r.
Proof.
  revert b. induction l as [|r l IH]; intros b; cbn [alloc In List.length];
    [tauto|].
  intros [<-|Hin].
  - cbn. split; [lia|]. exists r. split; [now left | reflexivity].
  - destruct (IH _ Hin) as (Hb & r' & Hr' & E).
    split; [lia|]. exists r'. split; [now right | exact E].
Qed.

Lemma alloc_filter_nil (p : forall T, Record_ T -> bool) (l : list Record)
    (b : addr) :
  (forall T (g : Stats -> T) r, p T (map_stats g r) = p Stats r) ->
  (forall r, In r l -> p Stats r = false) ->
  filter (A:=Obj) (p addr) (alloc b l) = [].
Proof.
  intros Hp H. apply filter_none. intros o Ho.
  apply alloc_In in Ho as (_ & r & Hr & ->). rewrite Hp. now apply H.
Qed.

(** X15.  After a call on freshly built records, every input record that is
    the first county-level record of its key holds the stats of the whole
    key (the accumulator shares its [stats] object), and every other input
    record is as it was. *)
Theorem generalizedJhudataV2_input_after (before after : list Record)
    (r : Record) :
  let data := before ++ r :: after in
  match generalizedJhudataV2 (heap_of data) (alloc 0%nat data) with
  | (h1, Ok _) =>
      nth_error (map (read h1) (alloc 0%nat data)) (List.length before)
      = Some (if (county_level r && negb (seen_before before r))%bool
              then match aggregate (group (key r) data) with
                   | Some a => map_stats (fun _ => stats a) r
                   | None => r
                   end
              else r)
  | (_, Throw) => no_inherited_key data = false
  end.
Proof.
  intros data. unfold generalizedJhudataV2.
  pose proof (forEach_sim (alloc 0%nat data) (mkLoop (heap_of data) [] [])) as Hsim.
  cbn [the_heap reachable result statesResult map app] in Hsim.
  rewrite app_nil_r, alloc_stats in Hsim. specialize (Hsim (seq_NoDup _ _)).
  rewrite alloc_heap_of in Hsim. unfold content in Hsim at 1 3. cbn in Hsim.
  pose proof (pure_forEach_spec data) as Hspec.
  destruct (forEach (alloc 0%nat data) (mkLoop (heap_of data) [] []))
    as [h1 [st|]] eqn:Hrun; [|now rewrite Hsim in Hspec].
  destruct Hsim as [_ Hsim]. rewrite Hsim in Hspec.
  unfold content in Hspec. destruct Hspec as (_ & _ & Hkeys & Hagg).
  rewrite map_map in Hkeys. cbn [fst] in Hkeys.
  change (fun x : string * Obj => fst x) with (@fst string Obj) in Hkeys.
  assert (Hnd : NoDup (map fst (statesResult st)))
    by (rewrite Hkeys; apply first_seen_NoDup).
  destruct (forEach_states _ _ Hrun) as (-> & Hown & _ & Hframe).
  cbn [statesResult the_heap own] in Hown, Hframe.
  (* the object built for [r] *)
  set (len := List.length before).
  set (obj := map_stats (fun _ : Stats => len) r).
  assert (Hobjs : alloc 0%nat data
                  = alloc 0%nat before ++ obj :: alloc (Datatypes.S len) after).
  { unfold data. now rewrite alloc_app. }
  assert (Hnth : nth_error (alloc 0%nat data) len = Some obj).
  { rewrite Hobjs, nth_error_app2 by (rewrite alloc_length; unfold len; lia).
    rewrite alloc_length. unfold len. now rewrite Nat.sub_diag. }
  rewrite nth_error_map, Hnth. cbn [option_map]. f_equal.
  assert (Hh0 : heap_of data len = stats r).
  { unfold heap_of, data. rewrite map_app, app_nth2; rewrite length_map;
      [|unfold len; lia]. unfold len. now rewrite Nat.sub_diag. }
  assert (Hkeyed : forall k T (g : Stats -> T) r0,
             keyed k (map_stats g r0) = keyed k r0) by reflexivity.
  (* the accumulators are the first objects of their keys *)
  assert (Hhead : forall k,
            filter (A:=Obj) (keyed k) (alloc 0%nat before) = [] ->
            keyed k r = true ->
            own (statesResult st) k = Some (defaultData obj)).
  { intros k Hnil Hk. rewrite Hown, Hobjs, filter_app. rewrite Hnil. cbn [app filter].
    unfold obj at 1. rewrite Hkeyed, Hk. reflexivity. }
  destruct (county_level r && negb (seen_before before r))%bool eqn:Hfirst.
  - (* the first of its key *)
    apply andb_prop in Hfirst as [Hc Hseen].
    assert (Hnil : filter (A:=Obj) (keyed (key r)) (alloc 0%nat before) = []).
    { apply (alloc_filter_nil (fun T => @keyed T (key r))); [reflexivity|].
      intros r' Hr'. unfold seen_before in Hseen.
      destruct (existsb _ before) eqn:Ex; [discriminate|].
      destruct (keyed (key r) r') eqn:Hk; [|reflexivity].
      exfalso. assert (X : existsb (fun r'0 : Record =>
                 (county_level r'0 && String.eqb (key r'0) (key r))%bool) before = true)
        by (apply existsb_exists; exists r'; split; assumption).
      congruence. }
    assert (Hk : keyed (key r) r = true)
      by (unfold keyed; now rewrite Hc, String.eqb_refl).
    specialize (Hhead (key r) Hnil Hk).
    specialize (Hagg (key r)). rewrite own_map, Hhead in Hagg.
    cbn [option_map] in Hagg. rewrite <- Hagg.
    unfold read, map_stats, obj. cbn. reflexivity.
  - (* any other record: its stats object is not an accumulator's *)
    assert (Hsame : the_heap st len = heap_of data len).
    { apply Hframe. intros [k acc] Hin Eaddr. cbn [snd] in Eaddr.
      apply (In_own _ k acc Hnd) in Hin. rewrite Hown in Hin.
      rewrite Hobjs, filter_app in Hin.
      destruct (filter (A:=Obj) (keyed k) (alloc 0%nat before)) as [|o l] eqn:Hb.
      + cbn [app filter] in Hin. unfold obj at 1 in Hin.
        rewrite Hkeyed in Hin.
        destruct (keyed k r) eqn:Hk.
        * (* [r] would be the first of its key *)
          unfold keyed in Hk. apply andb_prop in Hk as [Hc Hk].
          apply String.eqb_eq in Hk. subst k.
          rewrite Hc in Hfirst. cbn [andb] in Hfirst.
          destruct (seen_before before r) eqn:Hseen; [|discriminate].
          unfold seen_before in Hseen. apply existsb_exists in Hseen
            as (r' & Hr' & Hk').
          exfalso.
          enough (Hex : forall b, exists o, In o (alloc b before)
                                        /\ keyed (key r) o = true).
          { destruct (Hex 0%nat) as (o & Ho & Hko).
            assert (X : In o (filter (A:=Obj) (keyed (key r)) (alloc 0%nat before)))
              by (apply filter_In; auto).
            rewrite Hb in X. destruct X. }
          clear -Hr' Hk'. induction before as [|x before IH]; [destruct Hr'|].
          intros b. destruct Hr' as [->|Hr'].
          { eexists. split; [now left|]. exact Hk'. }
          destruct (IH Hr' (Datatypes.S b)) as (o & Ho & Hko).
          exists o. split; [now right | exact Hko].
        * destruct (filter (A:=Obj) (keyed k) (alloc (Datatypes.S len) after))
            as [|o l] eqn:Ha; [discriminate|].
          cbn [hd_error option_map] in Hin. injection Hin as <-.
          assert (Ho : In o (alloc (Datatypes.S len) after)).
          { assert (X : In o (filter (A:=Obj) (keyed k) (alloc (Datatypes.S len) after)))
              by (rewrite Ha; now left).
            now apply filter_In in X. }
          apply alloc_In in Ho as [Ho _]. cbn [defaultData stats] in Eaddr. lia.
      + cbn [app hd_error option_map] in Hin. injection Hin as <-.
        assert (Ho : In o (alloc 0%nat before)).
        { assert (X : In o (filter (A:=Obj) (keyed k) (alloc 0%nat before)))
            by (rewrite Hb; now left).
          now apply filter_In in X. }
        apply alloc_In in Ho as [Ho _]. cbn [defaultData stats] in Eaddr.
        unfold len in Eaddr. lia. }
    unfold read, obj. unfold map_stats.
    cbn [stats country province county updatedAt coordinates].
    rewrite Hsame, Hh0. now destruct r.
Qed.

(** ** Extracted snapshots and the order of rows *)

(** X16.  On the records extracted from any rows, [generalize] returns the
    records without county exactly as extracted, in order, ahead of the
    aggregated ones; and if no row names a county it returns the extracted
    records unchanged. *)
Theorem generalize_extracted (rows : list (list string)) :
  (forall out,
      generalize (map extractData rows) = Ok out ->
      exists aggregated,
        generalize_parts (map extractData rows)
        = Ok (filter (fun r => negb (county_level r)) (map extractData rows),
              aggregated)
        /\ out = filter (fun r => negb (county_level r)) (map extractData rows)
                 ++ map snd aggregated)
  /\ ((forall row, In row rows -> county_level (extractData row) = false) ->
      generalize (map extractData rows) = Ok (map extractData rows)).
Proof.
  assert (Hid : forall l,
            (forall r, In r l -> In r (map extractData rows)) ->
            map defaultData l = l).
  { intros l Hl. transitivity (map (fun r : Record => r) l); [|apply map_id].
    apply map_ext_in. intros r Hr. apply Hl, in_map_iff in Hr as (row & <- & _).
    unfold defaultData, extractData. cbn. now rewrite or_null_idempotent. }
  assert (Hfirst : forall out,
      generalize (map extractData rows) = Ok out ->
      exists aggregated,
        generalize_parts (map extractData rows)
        = Ok (filter (fun r => negb (county_level r)) (map extractData rows),
              aggregated)
        /\ out = filter (fun r => negb (county_level r)) (map extractData rows)
                 ++ map snd aggregated
        /\ Permutation (map fst aggregated)
             (first_seen (map key (filter county_level (map extractData rows))))).
  { intros out H. apply generalize_inv in H
      as (passed & aggregated & Hparts & -> & _ & Hpassed & Hperm & _).
    rewrite Hid in Hpassed by (intros r Hr; now apply filter_In in Hr).
    subst passed. eauto. }
  split.
  - intros out H. destruct (Hfirst out H) as (aggregated & H1 & H2 & _). eauto.
  - intros Hnone.
    assert (Hall : forall r, In r (map extractData rows) -> county_level r = false)
      by (intros r Hr; apply in_map_iff in Hr as (row & <- & Hrow); auto).
    destruct (generalize (map extractData rows)) as [out|] eqn:E.
    + destruct (Hfirst out eq_refl) as (aggregated & _ & -> & Hperm).
      rewrite (filter_none county_level) in Hperm by assumption.
      apply Permutation_sym, Permutation_nil in Hperm.
      destruct aggregated; [|discriminate Hperm].
      rewrite filter_all by (intros r Hr; now rewrite (Hall r Hr)).
      cbn [map]. now rewrite app_nil_r.
    + exfalso.
      assert (Hret : exists out, generalize (map extractData rows) = Ok out).
      { apply generalize_returns_iff. unfold no_inherited_key.
        apply forallb_forall. intros r Hr. now rewrite (Hall r Hr). }
      destruct Hret as [out Hout]. congruence.
Qed.

Lemma generalize_extracted_witness :
  generalize
    (map extractData
       [ ["";"";"";"Italy";"t";"41.9";"12.5";"7";"2";"1"];
         ["";"";"Hubei";"China";"t";"30.9";"112.2";"9";"3";"4"] ])
  = Ok (map extractData
          [ ["";"";"";"Italy";"t";"41.9";"12.5";"7";"2";"1"];
            ["";"";"Hubei";"China";"t";"30.9";"112.2";"9";"3";"4"] ]).
Proof.
  apply (proj2 (generalize_extracted
                  [ ["";"";"";"Italy";"t";"41.9";"12.5";"7";"2";"1"];
                    ["";"";"Hubei";"China";"t";"30.9";"112.2";"9";"3";"4"] ])).
  intros row [<-|[<-|[]]]; reflexivity.
Defined.

Section Field_order.
Variable f : Record -> jsnum.
Hypothesis f_aggregate :
  forall first rest a,
    aggregate (first :: rest) = Some a ->
    f a = fold_left jsadd (map f rest) (f first).

Lemma aggregate_perm (g g' : list Record) :
  Permutation g g' -> safe_counts (map f g) = true ->
  option_map f (aggregate g) = option_map f (aggregate g').
Proof.
  intros Hperm Hsafe.
  assert (Hsafe' : safe_counts (map f g') = true)
    by (rewrite <- (safe_counts_perm (Permutation_map f Hperm)); exact Hsafe).
  destruct g as [|first rest], g' as [|first' rest'].
  - reflexivity.
  - apply Permutation_nil in Hperm. discriminate Hperm.
  - apply Permutation_sym, Permutation_nil in Hperm. discriminate Hperm.
  - destruct (aggregate (first :: rest)) as [a|] eqn:Ea; [|discriminate Ea].
    destruct (aggregate (first' :: rest')) as [a'|] eqn:Ea'; [|discriminate Ea'].
    cbn [option_map]. f_equal.
    rewrite (f_aggregate Ea), (f_aggregate Ea').
    pose proof (chain_exact (f first) (map f rest) Hsafe) as Hs.
    pose proof (chain_exact (f first') (map f rest') Hsafe') as Hs'.
    rewrite Hs, Hs'. f_equal.
    apply (zsum_perm (Permutation_map integer (Permutation_map f Hperm))).
Qed.
End Field_order.

(** X17.  The totals do not depend on the order of the rows: for two
    orderings of the same records, [generalize] raises on both or returns on
    both, with the same set of keys, the same passed-through records up to
    order, and under every key the same count in each field whose values in
    the group of the key are integers with magnitudes adding up to at most
    2^53.  (The order of the result and the fields copied from the first
    county of a key depend on the order; beyond 2^53 additions round and
    the sum may depend on the order too.) *)
Theorem generalize_sums_order_free (data data' : list Record) :
  Permutation data data' ->
  match generalize_parts data, generalize_parts data' with
  | Ok (passed, aggregated), Ok (passed', aggregated') =>
      Permutation passed passed'
      /\ Permutation (map fst aggregated) (map fst aggregated')
      /\ forall k,
           (safe_counts (map confirmed_of (group k data)) = true ->
            option_map confirmed_of (own aggregated k)
            = option_map confirmed_of (own aggregated' k))
           /\ (safe_counts (map deaths_of (group k data)) = true ->
               option_map deaths_of (own aggregated k)
               = option_map deaths_of (own aggregated' k))
           /\ (safe_counts (map recovered_of (group k data)) = true ->
               option_map recovered_of (own aggregated k)
               = option_map recovered_of (own aggregated' k))
  | Throw, Throw => True
  | _, _ => False
  end.
Proof.
  intros Hperm.
  pose proof (generalize_parts_spec data) as H.
  pose proof (generalize_parts_spec data') as H'.
  assert (Hclean : no_inherited_key data = no_inherited_key data')
    by (apply forallb_perm, Hperm).
  destruct (generalize_parts data) as [[passed aggregated]|],
           (generalize_parts data') as [[passed' aggregated']|];
    [ | destruct H as [H _]; congruence
      | destruct H' as [H' _]; congruence
      | exact I ].
  destruct H as (_ & -> & Hk & _ & Hown).
  destruct H' as (_ & -> & Hk' & _ & Hown').
  split; [|split].
  - apply Permutation_map, filter_perm, Hperm.
  - rewrite Hk, Hk'. apply NoDup_Permutation; try apply first_seen_NoDup.
    intros k. rewrite !first_seen_In. split; apply Permutation_in;
      [|apply Permutation_sym]; apply Permutation_map, filter_perm, Hperm.
  - intros k. rewrite Hown, Hown'.
    assert (Hg : Permutation (group k data) (group k data'))
      by (apply filter_perm, Hperm).
    assert (Hagg : forall first rest a,
               aggregate (first :: rest) = Some a ->
               confirmed_of a
               = fold_left jsadd (map confirmed_of rest) (confirmed_of first)
               /\ deaths_of a
                  = fold_left jsadd (map deaths_of rest) (deaths_of first)
               /\ recovered_of a
                  = fold_left jsadd (map recovered_of rest)
                      (recovered_of first)).
    { intros first rest a Ha.
      pose proof (aggregate_sums (first :: rest)) as Hs.
      now rewrite Ha in Hs. }
    split; [|split]; intros Hsafe; apply aggregate_perm; try assumption;
      intros first rest a Ha; apply (Hagg first rest a Ha).
Qed.

Lemma generalize_sums_order_free_witness :
  exists passed aggregated passed' aggregated',
    generalize_parts california = Ok (passed, aggregated)
    /\ generalize_parts (rev california) = Ok (passed', aggregated')
    /\ option_map confirmed_of (own aggregated "California")
       = option_map confirmed_of (own aggregated' "California").
Proof.
  pose proof (generalize_sums_order_free (Permutation_rev california)) as H.
  destruct (generalize_parts california) as [[passed aggregated]|] eqn:E;
    [|discriminate E].
  destruct (generalize_parts (rev california)) as [[passed' aggregated']|] eqn:E';
    [|discriminate E'].
  exists passed, aggregated, passed', aggregated'.
  split; [reflexivity|]. split; [reflexivity|].
  destruct H as (_ & _ & H). apply H. reflexivity.
Defined.

(** X19.  Beyond 2^53 the additions round, and the total then depends on
    the order of the rows: three counties with 2^53, 1 and 1 confirmed cases
    sum to 2^53 in this order (each addition of 1 is rounded away) and to
    2^53 + 2 in the reverse order. *)
Theorem generalize_rounds_large_counts :
  safe_counts (map confirmed_of large_counts) = false
  /\ generalize large_counts
     = Ok [ example (JStr "US") (JStr "California") (JStr "Alameda")
                    (Num 9007199254740992) (Num 0) (Num 0) ]
  /\ generalize (rev large_counts)
     = Ok [ example (JStr "US") (JStr "California") (JStr "Colusa")
                    (Num 9007199254740994) (Num 0) (Num 0) ].
Proof.
  repeat split.
Qed.

(** ** The result depends on the content of the input only *)

(** X18.  Called on records that do not share their [stats] objects, in any
    heap, [generalizedJhudataV2] returns (read from the heap it leaves) what
    [generalize] returns on the content of those records, and raises when
    [generalize] raises: where the objects live does not matter. *)
Theorem generalizedJhudataV2_content (h : heap) (objs : list Obj) :
  NoDup (map (@stats addr) objs) ->
  match generalizedJhudataV2 h objs with
  | (h', Ok out) => generalize (map (read h) objs) = Ok (map (read h') out)
  | (_, Throw) => generalize (map (read h) objs) = Throw
  end.
Proof.
  intros Hnd. unfold generalizedJhudataV2.
  pose proof (forEach_sim objs (mkLoop h [] [])) as Hsim.
  cbn [the_heap reachable result statesResult map app] in Hsim.
  rewrite app_nil_r in Hsim. specialize (Hsim Hnd).
  unfold content in Hsim at 1 3. cbn in Hsim.
  rewrite generalize_from_parts, generalize_parts_pure.
  pose proof (pure_forEach_spec (map (read h) objs)) as Hspec.
  destruct (forEach objs (mkLoop h [] [])) as [h' [st|]]; [|now rewrite Hsim].
  destruct Hsim as [-> Hsim]. rewrite Hsim in Hspec |- *.
  unfold content in Hspec |- *. destruct Hspec as (_ & _ & Hkeys & _).
  rewrite map_map in Hkeys. cbn [fst] in Hkeys.
  change (fun x : string * Obj => fst x) with (@fst string Obj) in Hkeys.
  rewrite pushed_states_entries by (rewrite Hkeys; apply first_seen_NoDup).
  now rewrite Object_entries_map, map_app, !map_map.
Qed.

Lemma generalizedJhudataV2_content_witness :
  let h := fun a : addr => mkStats (Num (Z.of_nat a)) (Num 0) (Num 0) in
  let objs := alloc 40%nat california in
  exists h' out,
    generalizedJhudataV2 h objs = (h', Ok out)
    /\ generalize (map (read h) objs) = Ok (map (read h') out).
Proof.
  intros h objs.
  pose proof (@generalizedJhudataV2_content h objs) as H.
  destruct (generalizedJhudataV2 h objs) as [h' [out|]] eqn:E;
    [|discriminate E].
  exists h', out. split; [reflexivity|].
  apply H. unfold objs. rewrite alloc_stats. apply seq_NoDup.
Defined.
